(** * Boids flocking step: sequential reference, batch helper and scheduler

    A shallow embedding of [update_boids] (main.cpp) and of
    [update_boids_batch] / [update_boids_parallel] (main_parallel.cpp).

    The C++ code computes on [float].  The per-agent code is written once,
    over an interface of arithmetic operations ([FloatOps]), and read at two
    instances:
    - [binary32]: IEEE-754 single precision, round to nearest even, through
      the Standard Library's [SpecFloat] (precision 24, emax 128), with
      signed zeros, infinities and NaN.  This is what the program runs
      (assuming [FLT_EVAL_METHOD = 0] and no fused multiply-add).
    - [exact]: the real numbers, the arithmetic the prose of the
      specification has in mind when it speaks of speeds and bounds.

    [int] and [unsigned int] values are integers in [Z]; the conversions the
    scheduler performs between [size_t], [unsigned int] and [int] are written
    out with their wrap-around.  The neighbour counter of the inner loop is
    kept as an integer without wrap-around: it counts agents of the store,
    and a store that can be indexed by the program has fewer than [2^31].
    [std::abs] on a [float] operand is the float overload (sign bit
    cleared). *)

From Stdlib Require Import ZArith List Bool Lia Reals Lra SpecFloat.
Import ListNotations.

Local Open Scope Z_scope.

(** ** Arithmetic interface *)

Class FloatOps (F : Type) : Type := {
  fadd : F -> F -> F;
  fsub : F -> F -> F;
  fmul : F -> F -> F;
  fdiv : F -> F -> F;
  fsqrt : F -> F;                 (* std::sqrt *)
  fabs : F -> F;                  (* std::abs on float *)
  fmax : F -> F -> F;             (* std::fmax *)
  fmin : F -> F -> F;             (* std::fmin *)
  flt : F -> F -> bool;           (* operator< *)
  of_int : Z -> F;                (* int to float conversion *)
  of_dec : Z -> nat -> F          (* literal  m / 10^k  with suffix f *)
}.

Declare Scope float_scope.
Delimit Scope float_scope with flt.
Infix "+" := fadd : float_scope.
Infix "-" := fsub : float_scope.
Infix "*" := fmul : float_scope.
Infix "/" := fdiv : float_scope.
Infix "<?" := flt : float_scope.

(** operator> is operator< with the operands swapped. *)
Definition fgt {F} `{FloatOps F} (a b : F) : bool := flt b a.
Infix ">?" := fgt : float_scope.

(** ** IEEE-754 binary32 *)

Module B32.

Definition prec : Z := 24.
Definition emax : Z := 128.

Definition float : Type := spec_float.

Definition add : float -> float -> float := SFadd prec emax.
Definition sub : float -> float -> float := SFsub prec emax.
Definition mul : float -> float -> float := SFmul prec emax.
Definition div : float -> float -> float := SFdiv prec emax.
Definition sqrt : float -> float := SFsqrt prec emax.
Definition abs : float -> float := SFabs.
Definition ltb : float -> float -> bool := SFltb.
Definition leb : float -> float -> bool := SFleb.

Definition is_nan (x : float) : bool :=
  match x with S754_nan => true | _ => false end.

Definition is_inf (x : float) : bool :=
  match x with S754_infinity _ => true | _ => false end.

(** Neither infinite nor NaN. *)
Definition is_finite (x : float) : bool :=
  match x with S754_zero _ | S754_finite _ _ _ => true | _ => false end.

Definition is_zero (x : float) : bool :=
  match x with S754_zero _ => true | _ => false end.

(** C99 fmax / fmin: a NaN operand is treated as missing data. *)
Definition max (a b : float) : float :=
  if is_nan a then b else if is_nan b then a
  else if ltb a b then b else a.

Definition min (a b : float) : float :=
  if is_nan a then b else if is_nan b then a
  else if ltb b a then b else a.

(** Integer to float, rounded to nearest even. *)
Definition of_Z (n : Z) : float := binary_normalize prec emax n 0 false.

(** A decimal literal [m / 10^k]: both operands are exactly representable
    for the literals of this program, so the correctly rounded quotient is
    the float nearest to the decimal. *)
Definition dec (m : Z) (k : nat) : float :=
  div (of_Z m) (of_Z (10 ^ Z.of_nat k)).

(** Well-formed binary32 datum: canonical mantissa and exponent. *)
Definition valid (x : float) : bool := valid_binary prec emax x.

End B32.

#[export] Instance binary32 : FloatOps B32.float := {
  fadd := B32.add;
  fsub := B32.sub;
  fmul := B32.mul;
  fdiv := B32.div;
  fsqrt := B32.sqrt;
  fabs := B32.abs;
  fmax := B32.max;
  fmin := B32.min;
  flt := B32.ltb;
  of_int := B32.of_Z;
  of_dec := B32.dec
}.

(** ** Exact real arithmetic *)

Module Exact.

Definition ltb (a b : R) : bool := if Rlt_dec a b then true else false.

Definition dec (m : Z) (k : nat) : R := (IZR m / 10 ^ k)%R.

End Exact.

#[export] Instance exact : FloatOps R := {
  fadd := Rplus;
  fsub := Rminus;
  fmul := Rmult;
  fdiv := Rdiv;
  fsqrt := sqrt;
  fabs := Rabs;
  fmax := Rmax;
  fmin := Rmin;
  flt := Exact.ltb;
  of_int := IZR;
  of_dec := Exact.dec
}.

(** ** Constants (the [#define]s of both translation units) *)

Definition NUM_BOIDS : Z := 200.
Definition WIDTH : Z := 800.
Definition HEIGHT : Z := 600.
Definition VISUAL_RANGE : Z := 75.
Definition PROTECTED_RANGE : Z := 20.

Section Constants.
Context {F : Type} `{FloatOps F}.

Definition CENTERING_FACTOR : F := of_dec 5 3.    (* 0.005f *)
Definition AVOID_FACTOR : F := of_dec 5 2.        (* 0.05f *)
Definition MATCHING_FACTOR : F := of_dec 5 2.     (* 0.05f *)
Definition TURN_FACTOR : F := of_dec 10 1.        (* 1.0f *)
Definition MIN_SPEED : F := of_dec 100 1.         (* 10.0f *)
Definition MAX_SPEED : F := of_dec 400 1.         (* 40.0f *)
Definition MAX_BIAS : F := of_dec 25 2.           (* 0.25f *)
Definition BIAS_INCREMENT : F := of_dec 5 3.      (* 0.005f *)
End Constants.

(** ** Data model *)

(** [struct Boid]; [scout_group] is an [int]: 0 no bias, 1 right, 2 left. *)
Record Boid {F : Type} : Type := mkBoid {
  x : F;
  y : F;
  vx : F;
  vy : F;
  biasval : F;
  scout_group : Z
}.
Arguments Boid F : clear implicits.
Arguments mkBoid {F} _ _ _ _ _ _.

(** The locals of one outer-loop iteration that the neighbour scan fills. *)
Record Scan {F : Type} : Type := mkScan {
  xpos_avg : F;
  ypos_avg : F;
  xvel_avg : F;
  yvel_avg : F;
  neighboring_boids : Z;
  close_dx : F;
  close_dy : F
}.
Arguments Scan F : clear implicits.
Arguments mkScan {F} _ _ _ _ _ _ _.

Section Agent.
Context {F : Type} `{FloatOps F}.
Local Open Scope float_scope.

Definition set_vx (b : Boid F) (v : F) : Boid F :=
  mkBoid (x b) (y b) v (vy b) (biasval b) (scout_group b).
Definition set_vy (b : Boid F) (v : F) : Boid F :=
  mkBoid (x b) (y b) (vx b) v (biasval b) (scout_group b).
Definition set_x (b : Boid F) (v : F) : Boid F :=
  mkBoid v (y b) (vx b) (vy b) (biasval b) (scout_group b).
Definition set_y (b : Boid F) (v : F) : Boid F :=
  mkBoid (x b) v (vx b) (vy b) (biasval b) (scout_group b).
Definition set_biasval (b : Boid F) (v : F) : Boid F :=
  mkBoid (x b) (y b) (vx b) (vy b) v (scout_group b).

(** [clamp]: [std::fmax(min, std::fmin(value, max))]. *)
Definition clamp (value lo hi : F) : F := fmax lo (fmin value hi).

(** [std::min(a, b)] is [(b < a) ? b : a]; [std::max(a, b)] is
    [(a < b) ? b : a]. *)
Definition std_min (a b : F) : F := if b <? a then b else a.
Definition std_max (a b : F) : F := if a <? b then b else a.

(** *** Neighbour scan (inner loop) *)

Definition scan_init : Scan F :=
  mkScan (of_int 0) (of_int 0) (of_int 0) (of_int 0) 0%Z (of_int 0) (of_int 0).

(** Body of the inner loop for one [other] that is not [boid] itself. *)
Definition visit (boid other : Boid F) (acc : Scan F) : Scan F :=
  let dx := x boid - x other in
  let dy := y boid - y other in
  if (fabs dx <? of_int VISUAL_RANGE) && (fabs dy <? of_int VISUAL_RANGE) then
    let dist_squared := dx * dx + dy * dy in
    if dist_squared <? of_int (PROTECTED_RANGE * PROTECTED_RANGE) then
      mkScan (xpos_avg acc) (ypos_avg acc) (xvel_avg acc) (yvel_avg acc)
             (neighboring_boids acc)
             (close_dx acc + dx) (close_dy acc + dy)
    else if dist_squared <? of_int (VISUAL_RANGE * VISUAL_RANGE) then
      mkScan (xpos_avg acc + x other) (ypos_avg acc + y other)
             (xvel_avg acc + vx other) (yvel_avg acc + vy other)
             (neighboring_boids acc + 1)%Z
             (close_dx acc) (close_dy acc)
    else acc
  else acc.

(** The inner [for (const auto& other : boids)]: elements are visited in
    storage order; the element at the position of [boid] itself (the
    address test [&boid == &other]) is skipped. *)
Fixpoint scan_from (j self : nat) (boid : Boid F) (others : list (Boid F))
    (acc : Scan F) : Scan F :=
  match others with
  | [] => acc
  | other :: rest =>
      scan_from (S j) self boid rest
        (if Nat.eqb j self then acc else visit boid other acc)
  end.

Definition scan (boids : list (Boid F)) (self : nat) (boid : Boid F) : Scan F :=
  scan_from 0 self boid boids scan_init.

(** *** Velocity rule *)

Definition cohesion_alignment (boid : Boid F) (acc : Scan F) : Boid F :=
  if (0 <? neighboring_boids acc)%Z then
    let n := of_int (neighboring_boids acc) in
    let xpos := xpos_avg acc / n in
    let ypos := ypos_avg acc / n in
    let xvel := xvel_avg acc / n in
    let yvel := yvel_avg acc / n in
    let boid := set_vx boid
      (vx boid + ((xpos - x boid) * CENTERING_FACTOR
                  + (xvel - vx boid) * MATCHING_FACTOR)) in
    set_vy boid
      (vy boid + ((ypos - y boid) * CENTERING_FACTOR
                  + (yvel - vy boid) * MATCHING_FACTOR))
  else boid.

Definition separation (boid : Boid F) (acc : Scan F) (deltaTime : F) : Boid F :=
  let boid := set_vx boid (vx boid + close_dx acc * AVOID_FACTOR * deltaTime) in
  set_vy boid (vy boid + close_dy acc * AVOID_FACTOR * deltaTime).

Definition boundary_turn (boid : Boid F) : Boid F :=
  let boid := if x boid <? of_int 0
              then set_vx boid (vx boid + TURN_FACTOR) else boid in
  let boid := if x boid >? of_int WIDTH
              then set_vx boid (vx boid - TURN_FACTOR) else boid in
  let boid := if y boid <? of_int 0
              then set_vy boid (vy boid + TURN_FACTOR) else boid in
  if y boid >? of_int HEIGHT
  then set_vy boid (vy boid - TURN_FACTOR) else boid.

Definition bias_up (b : F) : F := std_min MAX_BIAS (b + BIAS_INCREMENT).
Definition bias_down (b : F) : F := std_max BIAS_INCREMENT (b - BIAS_INCREMENT).

Definition bias_dynamics (boid : Boid F) : Boid F :=
  if (scout_group boid =? 1)%Z then
    if vx boid >? of_int 0
    then set_biasval boid (bias_up (biasval boid))
    else set_biasval boid (bias_down (biasval boid))
  else if (scout_group boid =? 2)%Z then
    if vx boid <? of_int 0
    then set_biasval boid (bias_up (biasval boid))
    else set_biasval boid (bias_down (biasval boid))
  else boid.

Definition apply_bias (boid : Boid F) : Boid F :=
  if (scout_group boid =? 1)%Z then
    set_vx boid ((of_int 1 - biasval boid) * vx boid + biasval boid)
  else if (scout_group boid =? 2)%Z then
    set_vx boid ((of_int 1 - biasval boid) * vx boid - biasval boid)
  else boid.

(** The local [speed] of the speed-control block. *)
Definition speed_of (boid : Boid F) : F :=
  fsqrt (vx boid * vx boid + vy boid * vy boid).

Definition speed_control (boid : Boid F) : Boid F :=
  let speed := speed_of boid in
  if (speed <? MIN_SPEED) || (speed >? MAX_SPEED) then
    let boid := set_vx boid ((vx boid / speed) * clamp speed MIN_SPEED MAX_SPEED) in
    set_vy boid ((vy boid / speed) * clamp speed MIN_SPEED MAX_SPEED)
  else boid.

(** Everything between the inner loop and the position update. *)
Definition pre_clamp (boid : Boid F) (acc : Scan F) (deltaTime : F) : Boid F :=
  apply_bias (bias_dynamics (boundary_turn
    (separation (cohesion_alignment boid acc) acc deltaTime))).

Definition velocity_rule (boid : Boid F) (acc : Scan F) (deltaTime : F) : Boid F :=
  speed_control (pre_clamp boid acc deltaTime).

(** *** Position update *)

Definition integrate (boid : Boid F) (deltaTime : F) : Boid F :=
  let boid := set_x boid (x boid + vx boid * deltaTime) in
  set_y boid (y boid + vy boid * deltaTime).

(** One iteration of the outer loop: the new value of [boids[i]]. *)
Definition update_boid (boids : list (Boid F)) (i : nat) (boid : Boid F)
    (deltaTime : F) : Boid F :=
  integrate (velocity_rule boid (scan boids i boid) deltaTime) deltaTime.

End Agent.

(** ** The agent store and the two outer loops *)

(** [v[i] = a] for an index inside the vector [v]. *)
Fixpoint store {A : Type} (v : list A) (i : nat) (a : A) : list A :=
  match v, i with
  | [], _ => []
  | _ :: rest, O => a :: rest
  | b :: rest, S i' => b :: store rest i' a
  end.

Section Store.
Context {F : Type} `{FloatOps F}.

(** [boids[i]] for an [int] index; outside the vector the access is
    undefined and the model stops with [None]. *)
Definition at_index (boids : list (Boid F)) (i : Z) : option (Boid F) :=
  if (i <? 0)%Z then None else nth_error boids (Z.to_nat i).

(** *** [update_boids] (main.cpp)

    The range-based [for (auto& boid : boids)] walks the vector once, in
    place: [done] are the elements already rewritten, [todo] the ones still
    to come, and the inner loop of each iteration reads the vector as it
    stands at that moment. *)
Fixpoint update_boids_from (done todo : list (Boid F)) (deltaTime : F)
    : list (Boid F) :=
  match todo with
  | [] => done
  | boid :: rest =>
      let boid' := update_boid (done ++ boid :: rest) (length done) boid deltaTime in
      update_boids_from (done ++ [boid']) rest deltaTime
  end.

Definition update_boids (boids : list (Boid F)) (deltaTime : F) : list (Boid F) :=
  update_boids_from [] boids deltaTime.

(** *** [update_boids_batch] (main_parallel.cpp)

    [for (int i = start_idx; i < end_idx; i++)] runs
    [max 0 (end_idx - start_idx)] iterations, with [i] counting up from
    [start_idx]. *)
Fixpoint batch_iter (n : nat) (boids : list (Boid F)) (i : Z) (deltaTime : F)
    : option (list (Boid F)) :=
  match n with
  | O => Some boids
  | S n' =>
      match at_index boids i with
      | Some boid =>
          let k := Z.to_nat i in
          batch_iter n' (store boids k (update_boid boids k boid deltaTime))
                     (i + 1) deltaTime
      | None => None
      end
  end.

Definition update_boids_batch (boids : list (Boid F)) (start_idx end_idx : Z)
    (deltaTime : F) : option (list (Boid F)) :=
  batch_iter (Z.to_nat (end_idx - start_idx)) boids start_idx deltaTime.

(** One agent over several ticks, whatever its neighbours do: each tick
    supplies the result of that tick's scan and the elapsed time. *)
Definition tick (boid : Boid F) (acc : Scan F) (deltaTime : F) : Boid F :=
  integrate (velocity_rule boid acc deltaTime) deltaTime.

Fixpoint agent_run (boid : Boid F) (ticks : list (Scan F * F)) : Boid F :=
  match ticks with
  | [] => boid
  | (acc, deltaTime) :: rest => agent_run (tick boid acc deltaTime) rest
  end.

(** The whole store over several ticks of the sequential program. *)
Fixpoint run (boids : list (Boid F)) (deltas : list F) : list (Boid F) :=
  match deltas with
  | [] => boids
  | deltaTime :: rest => run (update_boids boids deltaTime) rest
  end.

End Store.

(** ** The scheduler's index arithmetic *)

Definition INT_MAX : Z := 2 ^ 31 - 1.
Definition UINT_MAX : Z := 2 ^ 32 - 1.

(** Conversion to [unsigned int]: reduction modulo 2^32. *)
Definition to_unsigned (z : Z) : Z := z mod 2 ^ 32.

(** Conversion to [int]: the value congruent modulo 2^32 in
    [-2^31, 2^31). *)
Definition to_int (z : Z) : Z := (z + 2 ^ 31) mod 2 ^ 32 - 2 ^ 31.

(** [const unsigned int NUM_THREADS = std::thread::hardware_concurrency();]
    The argument is the value the library call returns ([0] when the number
    of hardware threads is not computable). *)
Definition NUM_THREADS (hardware_concurrency : Z) : Z := hardware_concurrency.

(** [int batch_size = boids.size() / NUM_THREADS;] — the division is done in
    [size_t]; dividing by zero is undefined ([None]). *)
Definition batch_size (size T : Z) : option Z :=
  if T =? 0 then None else Some (to_int (size / T)).

(** [int start_idx = i * batch_size;] with [i] unsigned: the product is taken
    in [unsigned int]. *)
Definition start_idx (i bs : Z) : Z :=
  to_int (to_unsigned (i * to_unsigned bs)).

(** [int end_idx = (i == NUM_THREADS - 1) ? boids.size() : (i + 1) * batch_size;]
    the second branch is computed in [unsigned int], the conditional has type
    [size_t], and the result is narrowed to [int]. *)
Definition end_idx (size T i bs : Z) : Z :=
  to_int (if i =? to_unsigned (T - 1) then size
          else to_unsigned (to_unsigned (i + 1) * to_unsigned bs)).

(** The [(start_idx, end_idx)] pairs handed to the threads, in launch order. *)
Definition batch_bounds (size T : Z) : option (list (Z * Z)) :=
  match batch_size size T with
  | None => None
  | Some bs =>
      Some (map (fun i => (start_idx i bs, end_idx size T i bs))
                (map Z.of_nat (seq 0 (Z.to_nat T))))
  end.

(** ** [update_boids_parallel]: threads over a shared store

    Each thread runs [update_boids_batch] on its own index range against the
    one shared vector.  An iteration of a thread is cut into three blocks,
    each executed without interruption: the inner loop (which only reads),
    the velocity and bias assignments, and the position assignments.  Every
    run of this machine is a run of the program under some scheduling of its
    threads; the program has further runs, in which the blocks themselves
    interleave. *)

Inductive pc {F : Type} : Type :=
  | AtScan                       (* at the loop test [i < end_idx] *)
  | AtVelocity (acc : Scan F)    (* inner loop finished, locals filled *)
  | AtPosition.                  (* velocity settled, position not yet *)
Arguments pc F : clear implicits.

Record worker {F : Type} : Type := mkWorker {
  w_i : Z;
  w_end : Z;
  w_pc : pc F
}.
Arguments worker F : clear implicits.
Arguments mkWorker {F} _ _ _.

Section Parallel.
Context {F : Type} `{FloatOps F}.

(** The thread has left its loop. *)
Definition worker_done (w : worker F) : bool :=
  match w_pc w with
  | AtScan => negb (w_i w <? w_end w)
  | _ => false
  end.

(** One block of one thread; [None] when the thread has finished (or its
    index is outside the vector). *)
Definition worker_step (boids : list (Boid F)) (w : worker F) (deltaTime : F)
    : option (list (Boid F) * worker F) :=
  let k := Z.to_nat (w_i w) in
  match at_index boids (w_i w) with
  | None => None
  | Some boid =>
      match w_pc w with
      | AtScan =>
          if w_i w <? w_end w
          then Some (boids, mkWorker (w_i w) (w_end w) (AtVelocity (scan boids k boid)))
          else None
      | AtVelocity acc =>
          Some (store boids k (velocity_rule boid acc deltaTime),
                mkWorker (w_i w) (w_end w) AtPosition)
      | AtPosition =>
          Some (store boids k (integrate boid deltaTime),
                mkWorker (w_i w + 1) (w_end w) AtScan)
      end
  end.

Definition config : Type := list (Boid F) * list (worker F).

(** Some thread executes its next block. *)
Inductive par_step (deltaTime : F) : config -> config -> Prop :=
  | par_step_worker boids ws t w boids' w' :
      nth_error ws t = Some w ->
      worker_step boids w deltaTime = Some (boids', w') ->
      par_step deltaTime (boids, ws) (boids', store ws t w').

Inductive par_steps (deltaTime : F) : config -> config -> Prop :=
  | par_steps_refl c : par_steps deltaTime c c
  | par_steps_step c1 c2 c3 :
      par_step deltaTime c1 c2 -> par_steps deltaTime c2 c3 ->
      par_steps deltaTime c1 c3.

(** [threads.emplace_back(update_boids_batch, ...)] for every batch. *)
Definition spawn (bounds : list (Z * Z)) : list (worker F) :=
  map (fun se => mkWorker (fst se) (snd se) AtScan) bounds.

(** [update_boids_parallel] with [T] threads may leave the store as
    [final]: the batches are computed, the threads run in some
    interleaving, and all of them are joined. *)
Definition update_boids_parallel (T : Z) (boids : list (Boid F)) (deltaTime : F)
    (final : list (Boid F)) : Prop :=
  exists bounds ws,
    batch_bounds (Z.of_nat (length boids)) T = Some bounds /\
    par_steps deltaTime (boids, spawn bounds) (final, ws) /\
    forallb worker_done ws = true.

(** A scheduler: the list names, block after block, the thread that runs. *)
Fixpoint run_schedule (sched : list nat) (c : config) (deltaTime : F)
    : option config :=
  match sched with
  | [] => Some c
  | t :: rest =>
      match nth_error (snd c) t with
      | None => None
      | Some w =>
          match worker_step (fst c) w deltaTime with
          | None => None
          | Some (boids', w') =>
              run_schedule rest (boids', store (snd c) t w') deltaTime
          end
      end
  end.

End Parallel.

(** ** The neighbour scan as the specification words it

    Every other agent falls into one of three classes, and the outputs are
    sums over the classes, taken in storage order. *)

Inductive contribution : Type :=
  | Separation      (* inside the protected range *)
  | Neighbour       (* inside the visual range, outside the protected one *)
  | NoContribution.

Section ScanSpec.
Context {F : Type} `{FloatOps F}.
Local Open Scope float_scope.

Definition rel_dx (boid other : Boid F) : F := x boid - x other.
Definition rel_dy (boid other : Boid F) : F := y boid - y other.

Definition prefilter (boid other : Boid F) : bool :=
  (fabs (rel_dx boid other) <? of_int VISUAL_RANGE)
  && (fabs (rel_dy boid other) <? of_int VISUAL_RANGE).

Definition d2 (boid other : Boid F) : F :=
  rel_dx boid other * rel_dx boid other + rel_dy boid other * rel_dy boid other.

Definition classify (boid other : Boid F) : contribution :=
  if prefilter boid other then
    if d2 boid other <? of_int (PROTECTED_RANGE * PROTECTED_RANGE) then Separation
    else if d2 boid other <? of_int (VISUAL_RANGE * VISUAL_RANGE) then Neighbour
    else NoContribution
  else NoContribution.

Definition is_separation (boid other : Boid F) : bool :=
  match classify boid other with Separation => true | _ => false end.
Definition is_neighbour (boid other : Boid F) : bool :=
  match classify boid other with Neighbour => true | _ => false end.

(** All agents but the one at index [i], in storage order. *)
Definition others_of (boids : list (Boid F)) (i : nat) : list (Boid F) :=
  firstn i boids ++ skipn (S i) boids.

(** Accumulation [s += a] over a list, starting from [0]. *)
Definition fsum (l : list F) : F := fold_left fadd l (of_int 0).

Definition scan_spec (boids : list (Boid F)) (i : nat) (boid : Boid F) : Scan F :=
  let close := filter (is_separation boid) (others_of boids i) in
  let near := filter (is_neighbour boid) (others_of boids i) in
  mkScan (fsum (map x near)) (fsum (map y near))
         (fsum (map vx near)) (fsum (map vy near))
         (Z.of_nat (length near))
         (fsum (map (rel_dx boid) close)) (fsum (map (rel_dy boid) close)).

End ScanSpec.

(** ** Auxiliary notions used in the statements *)

Section Auxiliary.
Context {F : Type} `{FloatOps F}.

(** Two agents equal up to [biasval], which may differ only when the agent
    is in no scout group. *)
Definition same_agent (b1 b2 : Boid F) : Prop :=
  x b1 = x b2 /\ y b1 = y b2 /\ vx b1 = vx b2 /\ vy b1 = vy b2 /\
  scout_group b1 = scout_group b2 /\
  (scout_group b1 = 0 \/ biasval b1 = biasval b2).

(** The elements the inner loop does not skip, when its first element sits
    at position [j]. *)
Fixpoint visited (j self : nat) (l : list (Boid F)) : list (Boid F) :=
  match l with
  | [] => []
  | other :: rest =>
      if Nat.eqb j self then visited (S j) self rest
      else other :: visited (S j) self rest
  end.

(** The agent as it reaches the bias blocks. *)
Definition before_bias (b : Boid F) (acc : Scan F) (dt : F) : Boid F :=
  boundary_turn (separation (cohesion_alignment b acc) acc dt).

(** Does the sign of [vx] match the preferred direction of the group? *)
Definition heading_matches (b : Boid F) : bool :=
  if scout_group b =? 1 then fgt (vx b) (of_int 0) else flt (vx b) (of_int 0).

Definition ramp (up : bool) (bias : F) : F :=
  if up then bias_up bias else bias_down bias.

End Auxiliary.

(** Two agents 30 apart, the second in no scout group and carrying a stray
    [biasval] of 7. *)
Definition frame_store : list (Boid B32.float) :=
  [ mkBoid (of_int 100) (of_int 100) (of_int 12) (of_int 0) (of_int 0) 1;
    mkBoid (of_int 130) (of_int 100) (of_int 0) (of_int 12) (of_int 7) 0 ].

(** [bounds] cuts [[0, N)] into [T] contiguous batches: batch [i] starts at
    [i * (N / T)], every batch but the last holds [N / T] indices, the last
    one [N - (T - 1) * (N / T)], and each index of [[0, N)] lies in exactly
    one batch. *)
Definition partitions (N T : Z) (bounds : list (Z * Z)) : Prop :=
  Z.of_nat (length bounds) = T /\
  (forall i s e, nth_error bounds i = Some (s, e) ->
     s = Z.of_nat i * (N / T) /\
     e - s = if Z.of_nat i =? T - 1 then N - (T - 1) * (N / T) else N / T) /\
  (forall k, 0 <= k < N ->
     exists i, (exists s e, nth_error bounds i = Some (s, e) /\ s <= k < e) /\
       forall i', (exists s e, nth_error bounds i' = Some (s, e) /\ s <= k < e) ->
                  i' = i).

(** Equality of binary32 data (not the IEEE comparison: [NaN] equals itself
    and the two zeros differ). *)
Definition same_float (a b : B32.float) : bool :=
  match a, b with
  | S754_zero s, S754_zero s' => Bool.eqb s s'
  | S754_infinity s, S754_infinity s' => Bool.eqb s s'
  | S754_nan, S754_nan => true
  | S754_finite s m e, S754_finite s' m' e' =>
      Bool.eqb s s' && Pos.eqb m m' && Z.eqb e e'
  | _, _ => false
  end.

Definition member (a : B32.float) (l : list B32.float) : bool :=
  existsb (same_float a) l.

Definition add_new (l new : list B32.float) : list B32.float :=
  fold_left (fun l a => if member a l then l else l ++ [a]) new l.

(** The values reachable from those of [l] in at most [n] ticks. *)
Fixpoint grow (n : nat) (l : list B32.float) : list B32.float :=
  match n with
  | O => l
  | S n' => grow n' (add_new l (map bias_up l ++ map bias_down l))
  end.

(** Every value a ramp started at [BIAS_INCREMENT] can take. *)
Definition bias_values : list B32.float :=
  Eval vm_compute in grow 100 [BIAS_INCREMENT].

Definition in_bias_range (v : B32.float) : bool :=
  B32.leb BIAS_INCREMENT v && B32.leb v MAX_BIAS.

Definition not_finite (a : B32.float) : Prop := B32.is_finite a = false.

Definition nan (a : B32.float) : Prop := B32.is_nan a = true.

Definition in_speed_range (s : B32.float) : bool :=
  B32.leb MIN_SPEED s && B32.leb s MAX_SPEED.

(** An agent at rest, alone, for two ticks of one second. *)
Definition resting_agent : Boid B32.float :=
  mkBoid (of_int 100) (of_int 100) (of_int 0) (of_int 0) (of_int 0) 0.

(** An agent creeping at [vx = vy = 2^-100]: the squares underflow to 0. *)
Definition creeping_agent : Boid B32.float :=
  mkBoid (of_int 100) (of_int 100)
         (S754_finite false 8388608 (-123)) (S754_finite false 8388608 (-123))
         (of_int 0) 0.

(** An agent moving too slowly, [(vx, vy) = (1, 6)], in binary32 and in
    exact arithmetic. *)
Definition slow_agent {F : Type} `{FloatOps F} : Boid F :=
  mkBoid (of_int 100) (of_int 100) (of_int 1) (of_int 6) (of_int 0) 0.

(** An agent racing at [vx = 2^100]: the square overflows to [+infinity]. *)
Definition racing_agent : Boid B32.float :=
  mkBoid (of_int 100) (of_int 100) (S754_finite false 8388608 77) (of_int 0)
         (of_int 0) 0.

(** Two agents 30 apart, inside each other's visual range. *)
Definition race_store : list (Boid B32.float) :=
  [ mkBoid (of_int 100) (of_int 100) (of_int 12) (of_int 0) (of_int 0) 0;
    mkBoid (of_int 130) (of_int 100) (of_int 0) (of_int 12) (of_int 0) 0 ].

Definition race_dt : B32.float := of_dec 5 1.

(** Thread 0 owns agent 0, thread 1 owns agent 1. *)
Definition race_threads : list (worker B32.float) := spawn [(0, 1); (1, 2)].

(** Thread 0 completes its iteration before thread 1 starts. *)
Definition serial : list nat := [0; 0; 0; 1; 1; 1]%nat.

(** Thread 1 scans before thread 0 has written anything. *)
Definition early : list nat := [1; 0; 0; 0; 1; 1]%nat.

(** Thread 1 scans between the two writes of thread 0. *)
Definition midway : list nat := [0; 0; 1; 0; 1; 1]%nat.

(** The configuration a schedule leads to. *)
Definition after_with (threads : list (worker B32.float)) (sched : list nat)
    : config :=
  match run_schedule sched (race_store, threads) race_dt with
  | Some c => c
  | None => ([], [])
  end.

Definition after (sched : list nat) : config := after_with race_threads sched.

Definition same_boid (a b : Boid B32.float) : bool :=
  same_float (x a) (x b) && same_float (y a) (y b)
  && same_float (vx a) (vx b) && same_float (vy a) (vy b)
  && same_float (biasval a) (biasval b) && (scout_group a =? scout_group b).

Fixpoint same_store (l1 l2 : list (Boid B32.float)) : bool :=
  match l1, l2 with
  | [], [] => true
  | a :: l1', b :: l2' => same_boid a b && same_store l1' l2'
  | _, _ => false
  end.

(** Thread [t] stands at the head of its loop, about to scan, while the
    store holds [bj] at index [j]. *)
Definition scan_may_observe (T : Z) (boids : list (Boid B32.float))
    (dt : B32.float) (t j : nat) (bj : Boid B32.float) : Prop :=
  exists bounds now ws w,
    batch_bounds (Z.of_nat (length boids)) T = Some bounds /\
    par_steps dt (boids, spawn bounds) (now, ws) /\
    nth_error ws t = Some w /\ w_pc w = AtScan /\ (w_i w <? w_end w) = true /\
    nth_error now j = Some bj.

(** ** Binary32 data as real numbers *)

(** The smallest exponent a binary32 number of [e] digits may carry. *)
Definition fexp32 (e : Z) : Z := fexp B32.prec B32.emax e.

(** What [binary_round_aux] returns for the integer [m2] at exponent [e1]:
    a zero, or the float of mantissa [m3] and exponent [e3 >= e1] with the
    same value and a canonical mantissa (an infinity when [e3] is too
    large). *)
Definition rounds_to (sx : bool) (m2 e1 : Z) (z : B32.float) : Prop :=
  (m2 = 0 /\ z = S754_zero sx)
  \/ (exists m3 e3,
        Zpos m3 * 2 ^ (e3 - e1) = m2 /\ e1 <= e3 /\
        canonical_mantissa B32.prec B32.emax m3 e3 = true /\
        z = if e3 <=? 104 then S754_finite sx m3 e3 else S754_infinity sx).

(** The second half of [binary_round_aux]: renormalise after rounding. *)
Definition finish (sx : bool) (m2 e1 : Z) : B32.float :=
  let '(mrs, e) := shr_fexp B32.prec B32.emax m2 e1 loc_Exact in
  match shr_m mrs with
  | Z0 => S754_zero sx
  | Zpos m => if e <=? B32.emax - B32.prec then S754_finite sx m e
              else S754_infinity sx
  | Zneg _ => S754_nan
  end.

Definition bpow (e : Z) : R := powerRZ 2 e.

Definition sign_of (s : bool) : R := if s then (-1)%R else 1%R.

(** The real number a finite float stands for; 0 for the others. *)
Definition B2R (x : B32.float) : R :=
  match x with
  | S754_finite s m e => (sign_of s * IZR (Zpos m) * bpow e)%R
  | _ => 0%R
  end.

(** One unit in the last place, relative to the value, and the spacing of
    the subnormal numbers. *)
Definition ulp_rel : R := bpow (-23).
Definition ulp_min : R := bpow (-149).

(** [ulp_rel] as a fraction. *)
Definition u23 : R := (1 / 8388608)%R.

(** Finite and well-formed. *)
Definition finite_valid (x : B32.float) : Prop :=
  B32.is_finite x = true /\ B32.valid x = true.

(** The speed of an agent as a real number: the exact Euclidean norm of the
    velocity the two binary32 components stand for. *)
Definition exact_speed (b : Boid B32.float) : R :=
  sqrt (B2R (vx b) * B2R (vx b) + B2R (vy b) * B2R (vy b))%R.

(** * Properties *)

(** ** Proof automation for the straight-line stages *)

Ltac stage_simpl :=
  cbv beta iota zeta delta
    [set_vx set_vy set_x set_y set_biasval
     x y vx vy biasval scout_group].

Ltac stage b :=
  destruct b;
  unfold cohesion_alignment, separation, boundary_turn, bias_dynamics,
    apply_bias, speed_control, speed_of, integrate;
  stage_simpl;
  repeat (match goal with
          | |- context [if ?c then _ else _] =>
              lazymatch c with
              | context [if _ then _ else _] => fail
              | _ => destruct c
              end
          end; stage_simpl);
  reflexivity.

(** ** Vectors *)

Section StoreFacts.
Context {A : Type}.

Lemma store_length (v : list A) i a : length (store v i a) = length v.
Proof.
  revert i; induction v as [|b v IH]; intros [|i]; simpl; auto.
Qed.

Lemma store_app_here (l r : list A) b a :
  store (l ++ b :: r) (length l) a = l ++ a :: r.
Proof.
  induction l as [|c l IH]; simpl; [reflexivity|now rewrite IH].
Qed.

Lemma nth_error_app_here (l r : list A) b :
  nth_error (l ++ b :: r) (length l) = Some b.
Proof.
  induction l as [|c l IH]; simpl; auto.
Qed.

Lemma nth_error_store_same (v : list A) i a :
  (i < length v)%nat -> nth_error (store v i a) i = Some a.
Proof.
  revert i; induction v as [|b v IH]; intros [|i] Hi; simpl in *;
    try lia; auto.
  apply IH; lia.
Qed.

Lemma nth_error_store_other (v : list A) i j a :
  i <> j -> nth_error (store v i a) j = nth_error v j.
Proof.
  revert i j; induction v as [|b v IH]; intros [|i] [|j] Hij; simpl;
    try congruence; auto.
Qed.

Lemma map_store {B : Type} (f : A -> B) (v : list A) i a b :
  nth_error v i = Some b -> f a = f b -> map f (store v i a) = map f v.
Proof.
  revert i; induction v as [|c v IH]; intros [|i] Hb Hf; simpl in *;
    try discriminate.
  - injection Hb as ->. now rewrite Hf.
  - f_equal. now apply IH.
Qed.
End StoreFacts.

(** ** The batch helper against the sequential reference *)

Section BatchRefinement.
Context {F : Type} `{FloatOps F}.

Lemma at_index_app_here (done todo : list (Boid F)) b :
  at_index (done ++ b :: todo) (Z.of_nat (length done)) = Some b.
Proof.
  unfold at_index.
  destruct (Z.ltb_spec (Z.of_nat (length done)) 0) as [Hneg|_]; [lia|].
  rewrite Nat2Z.id. apply nth_error_app_here.
Qed.

Lemma batch_iter_zipper (todo done : list (Boid F)) deltaTime :
  batch_iter (length todo) (done ++ todo) (Z.of_nat (length done)) deltaTime
  = Some (update_boids_from done todo deltaTime).
Proof.
  revert done; induction todo as [|b rest IH]; intros done; simpl.
  - now rewrite app_nil_r.
  - rewrite at_index_app_here, Nat2Z.id, store_app_here.
    set (b' := update_boid _ _ _ _).
    specialize (IH (done ++ [b'])).
    rewrite <- app_assoc in IH; simpl in IH.
    rewrite length_app, Nat2Z.inj_add in IH; simpl in IH.
    exact IH.
Qed.

(** C7. Running [update_boids_batch] on the single full range [0, N)
    terminates normally and leaves exactly the store that one call of the
    sequential [update_boids] leaves, for every store and every
    [deltaTime]. *)
Theorem batch_full_range_is_update_boids (boids : list (Boid F)) (deltaTime : F) :
  update_boids_batch boids 0 (Z.of_nat (length boids)) deltaTime
  = Some (update_boids boids deltaTime).
Proof.
  unfold update_boids_batch, update_boids.
  rewrite Z.sub_0_r, Nat2Z.id.
  exact (batch_iter_zipper boids [] deltaTime).
Qed.

End BatchRefinement.

(** ** What one iteration leaves alone *)

Section Frame.
Context {F : Type} `{FloatOps F}.

Lemma cohesion_alignment_group b acc :
  scout_group (cohesion_alignment b acc) = scout_group b.
Proof. stage b. Qed.
Lemma separation_group b acc dt :
  scout_group (separation b acc dt) = scout_group b.
Proof. stage b. Qed.
Lemma boundary_turn_group b : scout_group (boundary_turn b) = scout_group b.
Proof. stage b. Qed.
Lemma bias_dynamics_group b : scout_group (bias_dynamics b) = scout_group b.
Proof. stage b. Qed.
Lemma apply_bias_group b : scout_group (apply_bias b) = scout_group b.
Proof. stage b. Qed.
Lemma speed_control_group b : scout_group (speed_control b) = scout_group b.
Proof. stage b. Qed.
Lemma integrate_group b dt : scout_group (integrate b dt) = scout_group b.
Proof. stage b. Qed.

Lemma tick_group b acc dt : scout_group (tick b acc dt) = scout_group b.
Proof.
  unfold tick, velocity_rule, pre_clamp.
  now rewrite integrate_group, speed_control_group, apply_bias_group,
    bias_dynamics_group, boundary_turn_group, separation_group,
    cohesion_alignment_group.
Qed.

(** The stages that never mention [biasval] commute with overwriting it. *)
Lemma cohesion_alignment_bias b acc v :
  cohesion_alignment (set_biasval b v) acc = set_biasval (cohesion_alignment b acc) v.
Proof. stage b. Qed.
Lemma separation_bias b acc dt v :
  separation (set_biasval b v) acc dt = set_biasval (separation b acc dt) v.
Proof. stage b. Qed.
Lemma boundary_turn_bias b v :
  boundary_turn (set_biasval b v) = set_biasval (boundary_turn b) v.
Proof. stage b. Qed.
Lemma speed_control_bias b v :
  speed_control (set_biasval b v) = set_biasval (speed_control b) v.
Proof. stage b. Qed.
Lemma integrate_bias b dt v :
  integrate (set_biasval b v) dt = set_biasval (integrate b dt) v.
Proof. stage b. Qed.

(** Without a scout group both bias blocks are skipped. *)
Lemma bias_dynamics_unbiased b : scout_group b = 0 -> bias_dynamics b = b.
Proof. unfold bias_dynamics; intros ->; reflexivity. Qed.
Lemma apply_bias_unbiased b : scout_group b = 0 -> apply_bias b = b.
Proof. unfold apply_bias; intros ->; reflexivity. Qed.

Lemma set_biasval_group (b : Boid F) v : scout_group (set_biasval b v) = scout_group b.
Proof. reflexivity. Qed.

Lemma tick_unbiased_bias b acc dt v :
  scout_group b = 0 ->
  tick (set_biasval b v) acc dt = set_biasval (tick b acc dt) v.
Proof.
  intros Hg. unfold tick, velocity_rule, pre_clamp.
  rewrite cohesion_alignment_bias, separation_bias, boundary_turn_bias.
  rewrite !bias_dynamics_unbiased, !apply_bias_unbiased;
    rewrite ?set_biasval_group, ?boundary_turn_group, ?separation_group,
      ?cohesion_alignment_group; auto.
  now rewrite speed_control_bias, integrate_bias.
Qed.

Lemma set_biasval_self (b : Boid F) : set_biasval b (biasval b) = b.
Proof. now destruct b. Qed.

Lemma tick_unbiased_keeps b acc dt :
  scout_group b = 0 -> biasval (tick b acc dt) = biasval b.
Proof.
  intros Hg. rewrite <- (set_biasval_self b) at 1.
  now rewrite tick_unbiased_bias.
Qed.

Lemma same_agent_refl (b : Boid F) : same_agent b b.
Proof. unfold same_agent; auto 10. Qed.

Lemma same_agent_rebias (b : Boid F) v :
  scout_group b = 0 -> same_agent b (set_biasval b v).
Proof. intros Hg. destruct b; unfold same_agent; simpl in *; auto 10. Qed.

Lemma same_agent_tick b1 b2 acc dt :
  same_agent b1 b2 -> same_agent (tick b1 acc dt) (tick b2 acc dt).
Proof.
  intros (Hx & Hy & Hvx & Hvy & Hg & Hb).
  assert (E : b2 = set_biasval b1 (biasval b2)).
  { destruct b1, b2; simpl in *; subst; reflexivity. }
  destruct Hb as [Hz|Hb].
  - rewrite E, tick_unbiased_bias by exact Hz.
    apply same_agent_rebias. now rewrite tick_group.
  - rewrite E, <- Hb, set_biasval_self. apply same_agent_refl.
Qed.

(** The inner loop reads positions and velocities only. *)
Lemma visit_same b1 b2 o1 o2 acc :
  same_agent b1 b2 -> same_agent o1 o2 -> visit b1 o1 acc = visit b2 o2 acc.
Proof.
  intros (Hx & Hy & _) (Ox & Oy & Ovx & Ovy & _).
  unfold visit. now rewrite Hx, Hy, Ox, Oy, Ovx, Ovy.
Qed.

Lemma scan_from_same l1 l2 :
  Forall2 same_agent l1 l2 ->
  forall j self b1 b2 acc, same_agent b1 b2 ->
    scan_from j self b1 l1 acc = scan_from j self b2 l2 acc.
Proof.
  induction 1 as [|o1 o2 l1 l2 Ho Hl IH]; intros j self b1 b2 acc Hb; simpl.
  - reflexivity.
  - rewrite (visit_same b1 b2 o1 o2 acc Hb Ho). now apply IH.
Qed.

Lemma update_boid_same l1 l2 i b1 b2 dt :
  Forall2 same_agent l1 l2 -> same_agent b1 b2 ->
  same_agent (update_boid l1 i b1 dt) (update_boid l2 i b2 dt).
Proof.
  intros Hl Hb. unfold update_boid, scan.
  rewrite (scan_from_same l1 l2 Hl 0%nat i b1 b2 scan_init Hb).
  now apply (same_agent_tick b1 b2).
Qed.

End Frame.

(** ** Every agent is rewritten once, by its own iteration *)

Section Pointwise.
Context {F : Type} `{FloatOps F}.

Lemma at_index_Some (boids : list (Boid F)) i b :
  at_index boids i = Some b ->
  0 <= i /\ nth_error boids (Z.to_nat i) = Some b.
Proof.
  unfold at_index. destruct (Z.ltb_spec i 0); [discriminate|]. auto.
Qed.

Lemma update_boid_is_tick (boids : list (Boid F)) i b dt :
  update_boid boids i b dt = tick b (scan boids i b) dt.
Proof. reflexivity. Qed.

(** After the loop, an agent outside the index range is untouched and an
    agent inside it is the [tick] of its old value for some scan result. *)
Lemma batch_iter_pointwise n :
  forall (boids boids' : list (Boid F)) i0 dt,
    batch_iter n boids i0 dt = Some boids' ->
    forall k b, nth_error boids k = Some b ->
      (nth_error boids' k = Some b /\ ~ (i0 <= Z.of_nat k < i0 + Z.of_nat n))
      \/ (exists acc, nth_error boids' k = Some (tick b acc dt)
                      /\ i0 <= Z.of_nat k < i0 + Z.of_nat n).
Proof.
  induction n as [|n IH]; intros boids boids' i0 dt Hrun k b Hk; simpl in Hrun.
  - injection Hrun as <-. left; split; [assumption|lia].
  - destruct (at_index boids i0) as [boid|] eqn:Hat; [|discriminate].
    apply at_index_Some in Hat as [Hpos Hat].
    assert (Hlt : (Z.to_nat i0 < length boids)%nat)
      by (apply nth_error_Some; congruence).
    destruct (Nat.eq_dec k (Z.to_nat i0)) as [->|Hne].
    + assert (b = boid) by congruence; subst boid.
      destruct (IH _ _ _ _ Hrun (Z.to_nat i0) _
                  (nth_error_store_same boids _ _ Hlt)) as [[Hsame _]|[acc [_ Hin]]].
      * right. exists (scan boids (Z.to_nat i0) b). split; [exact Hsame|lia].
      * lia.
    + destruct (IH _ _ _ _ Hrun k b) as [[Hsame Hout]|[acc [Hupd Hin]]].
      * rewrite nth_error_store_other; auto.
      * left; split; [assumption|lia].
      * right; exists acc; split; [assumption|lia].
Qed.

Lemma batch_iter_length n :
  forall (boids boids' : list (Boid F)) i0 dt,
    batch_iter n boids i0 dt = Some boids' -> length boids' = length boids.
Proof.
  induction n as [|n IH]; intros boids boids' i0 dt Hrun; simpl in Hrun.
  - now injection Hrun as <-.
  - destruct (at_index boids i0) as [boid|]; [|discriminate].
    apply IH in Hrun. now rewrite store_length in Hrun.
Qed.

Lemma update_boids_pointwise (boids : list (Boid F)) dt k b :
  nth_error boids k = Some b ->
  exists acc, nth_error (update_boids boids dt) k = Some (tick b acc dt).
Proof.
  intros Hk.
  pose proof (batch_iter_zipper boids [] dt) as Hrun; simpl in Hrun.
  destruct (batch_iter_pointwise _ _ _ _ _ Hrun k b Hk)
    as [[_ Hout]|[acc [Hupd _]]].
  - exfalso; apply Hout.
    assert (k < length boids)%nat by (apply nth_error_Some; congruence). lia.
  - now exists acc.
Qed.

Lemma update_boids_length (boids : list (Boid F)) dt :
  length (update_boids boids dt) = length boids.
Proof.
  pose proof (batch_iter_zipper boids [] dt) as Hrun; simpl in Hrun.
  exact (batch_iter_length _ _ _ _ _ Hrun).
Qed.

(** Over a run of the sequential program each agent goes through
    [agent_run], for some sequence of scan results. *)
Lemma run_pointwise deltas :
  forall (boids : list (Boid F)) k b,
    nth_error boids k = Some b ->
    exists ticks, map snd ticks = deltas /\
                  nth_error (run boids deltas) k = Some (agent_run b ticks).
Proof.
  induction deltas as [|dt deltas IH]; intros boids k b Hk; simpl.
  - exists []; auto.
  - destruct (update_boids_pointwise boids dt k b Hk) as [acc Hacc].
    destruct (IH _ _ _ Hacc) as [ticks [Hd Hrun]].
    exists ((acc, dt) :: ticks); simpl. rewrite Hd. auto.
Qed.

Lemma pointwise_map {B : Type} (f : Boid F -> B) (l l' : list (Boid F)) :
  length l' = length l ->
  (forall k b, nth_error l k = Some b ->
               exists b', nth_error l' k = Some b' /\ f b' = f b) ->
  map f l' = map f l.
Proof.
  revert l'; induction l as [|a l IH]; intros [|a' l'] Hlen Hpt;
    simpl in *; try discriminate; auto.
  destruct (Hpt 0%nat a eq_refl) as [b' [Hb' Hf]]; simpl in Hb'.
  injection Hb' as <-. rewrite Hf. f_equal.
  apply IH; [lia|]. intros k b Hk. exact (Hpt (S k) b Hk).
Qed.

Lemma agent_run_group ticks :
  forall b : Boid F, scout_group (agent_run b ticks) = scout_group b.
Proof.
  induction ticks as [|[acc dt] ticks IH]; intros b; simpl; auto.
  now rewrite IH, tick_group.
Qed.

Lemma agent_run_unbiased_keeps ticks :
  forall b : Boid F, scout_group b = 0 ->
    biasval (agent_run b ticks) = biasval b.
Proof.
  induction ticks as [|[acc dt] ticks IH]; intros b Hg; simpl; auto.
  rewrite IH by now rewrite tick_group.
  now apply tick_unbiased_keeps.
Qed.

Lemma run_length deltas :
  forall boids : list (Boid F), length (run boids deltas) = length boids.
Proof.
  induction deltas as [|dt deltas IH]; intros boids; simpl; auto.
  now rewrite IH, update_boids_length.
Qed.

(** *** Stores that differ only in the [biasval] of unbiased agents *)

Lemma Forall2_nth_error_rel {A} (R : A -> A -> Prop) (l1 l2 : list A) :
  Forall2 R l1 l2 ->
  forall k, match nth_error l1 k, nth_error l2 k with
            | Some a1, Some a2 => R a1 a2
            | None, None => True
            | _, _ => False
            end.
Proof.
  induction 1 as [|a1 a2 l1 l2 Ha Hl IH]; intros [|k]; simpl; auto.
  apply IH.
Qed.

Lemma Forall2_store {A} (R : A -> A -> Prop) (l1 l2 : list A) k a1 a2 :
  Forall2 R l1 l2 -> R a1 a2 -> Forall2 R (store l1 k a1) (store l2 k a2).
Proof.
  intros Hl; revert k; induction Hl as [|b1 b2 l1 l2 Hb Hl IH];
    intros [|k] Ha; simpl; constructor; auto.
Qed.

Lemma batch_iter_same n :
  forall (l1 l2 : list (Boid F)) i dt,
    Forall2 same_agent l1 l2 ->
    match batch_iter n l1 i dt, batch_iter n l2 i dt with
    | Some r1, Some r2 => Forall2 same_agent r1 r2
    | None, None => True
    | _, _ => False
    end.
Proof.
  induction n as [|n IH]; intros l1 l2 i dt Hl; simpl; auto.
  unfold at_index. destruct (i <? 0); auto.
  pose proof (Forall2_nth_error_rel _ _ _ Hl (Z.to_nat i)) as Hk.
  destruct (nth_error l1 (Z.to_nat i)) as [b1|],
           (nth_error l2 (Z.to_nat i)) as [b2|]; try contradiction; auto.
  apply IH, Forall2_store; auto.
  now apply update_boid_same.
Qed.

Lemma update_boids_same (l1 l2 : list (Boid F)) dt :
  Forall2 same_agent l1 l2 ->
  Forall2 same_agent (update_boids l1 dt) (update_boids l2 dt).
Proof.
  intros Hl.
  pose proof (batch_iter_same (length l1) l1 l2 0 dt Hl) as Hsame.
  pose proof (batch_iter_zipper l1 [] dt) as H1.
  pose proof (batch_iter_zipper l2 [] dt) as H2.
  simpl in H1, H2. rewrite <- (Forall2_length Hl) in H2.
  now rewrite H1, H2 in Hsame.
Qed.

Lemma run_same deltas :
  forall l1 l2 : list (Boid F),
    Forall2 same_agent l1 l2 ->
    Forall2 same_agent (run l1 deltas) (run l2 deltas).
Proof.
  induction deltas as [|dt deltas IH]; intros l1 l2 Hl; simpl; auto.
  now apply IH, update_boids_same.
Qed.

End Pointwise.

(** C8. The per-tick update never changes [scout_group], neither over a run
    of the sequential program nor in a call of the batch helper.  For an
    agent with group None ([scout_group = 0]) [biasval] is never written (it
    keeps its initial value, 0 after initialisation) and never read: two
    stores that differ only in the [biasval] of such agents are taken to
    stores that differ only there.  The bias-application block leaves such an
    agent, hence its [vx], unchanged. *)
Theorem group_fixed_and_unbiased_bias_untouched
    {F : Type} `{FloatOps F} (boids : list (Boid F)) (deltas : list F) :
  map scout_group (run boids deltas) = map scout_group boids
  /\ (forall s e dt boids',
        update_boids_batch boids s e dt = Some boids' ->
        map scout_group boids' = map scout_group boids)
  /\ (forall i b,
        nth_error boids i = Some b -> scout_group b = 0 ->
        exists b', nth_error (run boids deltas) i = Some b'
                   /\ biasval b' = biasval b)
  /\ (forall s e dt boids' i b,
        update_boids_batch boids s e dt = Some boids' ->
        nth_error boids i = Some b -> scout_group b = 0 ->
        exists b', nth_error boids' i = Some b' /\ biasval b' = biasval b)
  /\ (forall boids2,
        Forall2 same_agent boids boids2 ->
        Forall2 same_agent (run boids deltas) (run boids2 deltas))
  /\ (forall boids2 s e dt boids',
        Forall2 same_agent boids boids2 ->
        update_boids_batch boids s e dt = Some boids' ->
        exists boids2', update_boids_batch boids2 s e dt = Some boids2'
                        /\ Forall2 same_agent boids' boids2')
  /\ (forall b : Boid F, scout_group b = 0 -> apply_bias b = b).
Proof.
  repeat apply conj.
  - apply pointwise_map; [apply run_length|].
    intros k b Hk. destruct (run_pointwise deltas boids k b Hk) as [ticks [_ Hr]].
    eexists; split; [exact Hr|apply agent_run_group].
  - intros s e dt boids' Hrun. unfold update_boids_batch in Hrun.
    apply pointwise_map; [exact (batch_iter_length _ _ _ _ _ Hrun)|].
    intros k b Hk.
    destruct (batch_iter_pointwise _ _ _ _ _ Hrun k b Hk)
      as [[Hsame _]|[acc [Hupd _]]]; eexists; split; eauto.
    apply tick_group.
  - intros i b Hi Hg.
    destruct (run_pointwise deltas boids i b Hi) as [ticks [_ Hr]].
    eexists; split; [exact Hr|now apply agent_run_unbiased_keeps].
  - intros s e dt boids' i b Hrun Hi Hg. unfold update_boids_batch in Hrun.
    destruct (batch_iter_pointwise _ _ _ _ _ Hrun i b Hi)
      as [[Hsame _]|[acc [Hupd _]]]; eexists; split; eauto.
    now apply tick_unbiased_keeps.
  - intros boids2. apply run_same.
  - intros boids2 s e dt boids' Hl Hrun. unfold update_boids_batch in *.
    pose proof (batch_iter_same (Z.to_nat (e - s)) boids boids2 s dt Hl) as Hs.
    rewrite Hrun in Hs.
    destruct (batch_iter _ boids2 s dt) as [r2|]; [|contradiction].
    now exists r2.
  - intros b. apply apply_bias_unbiased.
Qed.

Lemma group_fixed_and_unbiased_bias_untouched_witness :
  exists b', nth_error (run frame_store [of_int 1; of_dec 5 1]) 1 = Some b'
             /\ biasval b' = of_int 7.
Proof.
  destruct (group_fixed_and_unbiased_bias_untouched frame_store
              [of_int 1; of_dec 5 1]) as (_ & _ & Hkeep & _).
  apply (Hkeep 1%nat
           (mkBoid (of_int 130) (of_int 100) (of_int 0) (of_int 12) (of_int 7) 0));
    reflexivity.
Defined.

(** ** The inner loop computes the sums of the specification *)

Section ScanRefinement.
Context {F : Type} `{FloatOps F}.

Lemma visited_past j self (l : list (Boid F)) :
  (self < j)%nat -> visited j self l = l.
Proof.
  revert j; induction l as [|o l IH]; intros j Hj; simpl; auto.
  destruct (Nat.eqb_spec j self); [lia|]. f_equal. apply IH; lia.
Qed.

Lemma visited_others (l : list (Boid F)) :
  forall j i, visited j (j + i) l = others_of l i.
Proof.
  unfold others_of.
  induction l as [|o l IH]; intros j [|i]; simpl.
  - reflexivity.
  - reflexivity.
  - rewrite Nat.add_0_r, Nat.eqb_refl. apply visited_past; lia.
  - destruct (Nat.eqb_spec j (j + S i)); [lia|].
    f_equal. replace (j + S i)%nat with (S j + i)%nat by lia. apply IH.
Qed.

Lemma scan_from_visited (l : list (Boid F)) :
  forall j self boid acc,
    scan_from j self boid l acc
    = fold_left (fun a other => visit boid other a) (visited j self l) acc.
Proof.
  induction l as [|o l IH]; intros j self boid acc; simpl; auto.
  destruct (Nat.eqb j self); simpl; apply IH.
Qed.

Lemma visit_classify (boid other : Boid F) acc :
  visit boid other acc =
  match classify boid other with
  | Separation =>
      mkScan (xpos_avg acc) (ypos_avg acc) (xvel_avg acc) (yvel_avg acc)
             (neighboring_boids acc)
             (fadd (close_dx acc) (rel_dx boid other))
             (fadd (close_dy acc) (rel_dy boid other))
  | Neighbour =>
      mkScan (fadd (xpos_avg acc) (x other)) (fadd (ypos_avg acc) (y other))
             (fadd (xvel_avg acc) (vx other)) (fadd (yvel_avg acc) (vy other))
             (neighboring_boids acc + 1)
             (close_dx acc) (close_dy acc)
  | NoContribution => acc
  end.
Proof.
  unfold visit, classify, prefilter, d2, rel_dx, rel_dy.
  repeat match goal with
         | |- context [if ?c then _ else _] =>
             lazymatch c with
             | context [if _ then _ else _] => fail
             | _ => destruct c
             end
         end; reflexivity.
Qed.

Lemma fold_visit (boid : Boid F) (l : list (Boid F)) :
  forall acc,
    fold_left (fun a other => visit boid other a) l acc =
    let close := filter (is_separation boid) l in
    let near := filter (is_neighbour boid) l in
    mkScan (fold_left fadd (map x near) (xpos_avg acc))
           (fold_left fadd (map y near) (ypos_avg acc))
           (fold_left fadd (map vx near) (xvel_avg acc))
           (fold_left fadd (map vy near) (yvel_avg acc))
           (neighboring_boids acc + Z.of_nat (length near))
           (fold_left fadd (map (rel_dx boid) close) (close_dx acc))
           (fold_left fadd (map (rel_dy boid) close) (close_dy acc)).
Proof.
  induction l as [|o l IH]; intros acc.
  - destruct acc; simpl. now rewrite Z.add_0_r.
  - cbn [fold_left filter]. rewrite IH, visit_classify.
    unfold is_separation, is_neighbour.
    destruct (classify boid o); cbn -[Z.of_nat Z.add]; try reflexivity.
    f_equal. lia.
Qed.

(** C6. For a target agent at index [i] the inner loop visits every other
    agent in storage order (the agent itself is skipped) and returns exactly
    the sums of the specification: an agent passing the rectangular
    pre-filter [|dx| < VISUAL_RANGE] and [|dy| < VISUAL_RANGE] adds [(dx, dy)]
    to [(close_dx, close_dy)] when [d2 < PROTECTED_RANGE^2], and otherwise,
    when [d2 < VISUAL_RANGE^2], adds its position and velocity to the four
    sums and one to the neighbour counter; every other agent adds nothing. *)
Theorem scan_refines_scan_spec (boids : list (Boid F)) (i : nat) (boid : Boid F) :
  scan boids i boid = scan_spec boids i boid.
Proof.
  unfold scan, scan_spec, fsum.
  rewrite scan_from_visited.
  pose proof (visited_others boids 0 i) as Hv; simpl in Hv; rewrite Hv.
  rewrite fold_visit. reflexivity.
Qed.

End ScanRefinement.

(** ** The scheduler's partition *)

Lemma to_int_small z : - 2 ^ 31 <= z < 2 ^ 31 -> to_int z = z.
Proof. intros Hz. unfold to_int. rewrite Z.mod_small; lia. Qed.

Lemma to_unsigned_small z : 0 <= z < 2 ^ 32 -> to_unsigned z = z.
Proof. intros Hz. unfold to_unsigned. now rewrite Z.mod_small. Qed.

Lemma nth_error_map_seq {A : Type} (f : Z -> A) n i :
  nth_error (map f (map Z.of_nat (seq 0 n))) i
  = if (i <? n)%nat then Some (f (Z.of_nat i)) else None.
Proof.
  rewrite map_map.
  destruct (Nat.ltb_spec i n) as [Hlt|Hge].
  - rewrite nth_error_map, nth_error_seq.
    destruct (Nat.ltb_spec i n); [|lia]. reflexivity.
  - apply nth_error_None. rewrite length_map, length_seq. exact Hge.
Qed.

Section Partition.
Variables N T : Z.
Hypothesis HN : 0 <= N <= INT_MAX.
Hypothesis HT : 1 <= T <= UINT_MAX.

Let q := N / T.

Lemma quotient_bounds : 0 <= q /\ T * q <= N.
Proof.
  unfold q. split.
  - apply Z.div_pos; lia.
  - apply Z.mul_div_le; lia.
Qed.

Lemma batch_size_in_range : batch_size N T = Some q.
Proof.
  unfold batch_size, INT_MAX in *.
  destruct (Z.eqb_spec T 0); [lia|].
  pose proof quotient_bounds as [Hq Hle].
  rewrite to_int_small; [reflexivity|]. fold q. nia.
Qed.

Lemma start_idx_in_range i : 0 <= i < T -> start_idx i q = i * q.
Proof.
  intros Hi. pose proof quotient_bounds as [Hq Hle].
  unfold start_idx, INT_MAX, UINT_MAX in *.
  rewrite (to_unsigned_small q) by nia.
  rewrite to_unsigned_small by nia.
  apply to_int_small; nia.
Qed.

Lemma end_idx_in_range i :
  0 <= i < T ->
  end_idx N T i q = if i =? T - 1 then N else (i + 1) * q.
Proof.
  intros Hi. pose proof quotient_bounds as [Hq Hle].
  unfold end_idx, INT_MAX, UINT_MAX in *.
  rewrite (to_unsigned_small (T - 1)) by lia.
  destruct (Z.eqb_spec i (T - 1)).
  - apply to_int_small; lia.
  - rewrite (to_unsigned_small q) by nia.
    rewrite (to_unsigned_small (i + 1)) by lia.
    rewrite to_unsigned_small by nia.
    apply to_int_small; nia.
Qed.

Lemma batch_bounds_nth bounds i :
  batch_bounds N T = Some bounds ->
  nth_error bounds i
  = if (i <? Z.to_nat T)%nat
    then Some (Z.of_nat i * q,
               if Z.of_nat i =? T - 1 then N else (Z.of_nat i + 1) * q)
    else None.
Proof.
  unfold batch_bounds. rewrite batch_size_in_range. intros [= <-].
  rewrite nth_error_map_seq.
  destruct (Nat.ltb_spec i (Z.to_nat T)) as [Hlt|Hge]; [|reflexivity].
  rewrite start_idx_in_range, end_idx_in_range by lia. reflexivity.
Qed.

End Partition.

(** C3 (amended). For every population size [N] that fits an [int]
    ([0 <= N <= 2^31 - 1]) and every worker count [1 <= T <= UINT_MAX] the
    scheduler's index pairs cut [[0, N)] into [T] contiguous batches: batch
    [i] starts at [i * (N / T)], the first [T - 1] batches hold [N / T]
    indices each, the last holds [N - (T - 1) * (N / T)], and every index of
    [[0, N)] lies in exactly one batch. *)
Theorem scheduler_partitions (N T : Z) :
  0 <= N <= INT_MAX -> 1 <= T <= UINT_MAX ->
  exists bounds, batch_bounds N T = Some bounds /\ partitions N T bounds.
Proof.
  intros HN HT.
  pose proof (quotient_bounds N T HN HT) as [Hq Hle]; cbv zeta in Hq, Hle.
  pose proof (batch_size_in_range N T HN HT) as Hsize; cbv zeta in Hsize.
  destruct (batch_bounds N T) as [bounds|] eqn:Hb.
  2:{ unfold batch_bounds in Hb. now rewrite Hsize in Hb. }
  exists bounds; split; [reflexivity|].
  pose proof (fun i => batch_bounds_nth N T HN HT bounds i Hb) as Hnth;
    cbv zeta in Hnth.
  set (q := N / T) in *.
  repeat apply conj.
  - unfold batch_bounds in Hb. rewrite Hsize in Hb.
    injection Hb as <-. rewrite !length_map, length_seq. lia.
  - intros i s e Hi. rewrite Hnth in Hi.
    destruct (Nat.ltb_spec i (Z.to_nat T)); [|discriminate].
    injection Hi as <- <-. split; [reflexivity|].
    destruct (Z.eqb_spec (Z.of_nat i) (T - 1)); nia.
  - intros k Hk.
    (* the batch of [k]: its quotient by [q], capped at the last batch *)
    set (j := if q =? 0 then T - 1 else Z.min (k / q) (T - 1)).
    assert (Hj : 0 <= j < T).
    { unfold j. destruct (Z.eqb_spec q 0); [lia|].
      assert (0 <= k / q) by (apply Z.div_pos; lia). lia. }
    assert (Hin : forall i, 0 <= i < T ->
              (i * q <= k < (if i =? T - 1 then N else (i + 1) * q)) <-> i = j).
    { intros i Hi. unfold j.
      destruct (Z.eqb_spec q 0) as [Hq0|Hq0].
      - rewrite Hq0. destruct (Z.eqb_spec i (T - 1)); lia.
      - assert (Hdiv : q * (k / q) <= k < q * (k / q) + q).
        { pose proof (Z.div_mod k q Hq0). pose proof (Z.mod_pos_bound k q). lia. }
        destruct (Z.eqb_spec i (T - 1)); split; intros Hx; try nia. }
    exists (Z.to_nat j). split.
    + exists (j * q), (if j =? T - 1 then N else (j + 1) * q).
      rewrite Hnth. destruct (Nat.ltb_spec (Z.to_nat j) (Z.to_nat T)); [|lia].
      rewrite Z2Nat.id by lia. split; [reflexivity|]. now apply Hin.
    + intros i' (s & e & Hi' & Hse). rewrite Hnth in Hi'.
      destruct (Nat.ltb_spec i' (Z.to_nat T)); [|discriminate].
      injection Hi' as <- <-.
      apply Hin in Hse; lia.
Qed.

Lemma scheduler_partitions_witness :
  exists bounds, batch_bounds 200 3 = Some bounds /\ partitions 200 3 bounds.
Proof.
  apply (scheduler_partitions 200 3); unfold INT_MAX, UINT_MAX; lia.
Defined.

(** C3 as stated fails for a population that does not fit an [int]: with
    [N = 2^31] agents and one thread, [batch_size] and [end_idx] wrap to
    [-2^31], the only batch is [[0, -2^31)], and no index is covered. *)
Lemma scheduler_partition_int_overflow :
  batch_bounds (2 ^ 31) 1 = Some [(0, - 2 ^ 31)] /\
  ~ (exists bounds, batch_bounds (2 ^ 31) 1 = Some bounds
                    /\ partitions (2 ^ 31) 1 bounds).
Proof.
  split; [reflexivity|].
  intros (bounds & Hb & _ & _ & Hcover).
  vm_compute in Hb. injection Hb as <-.
  destruct (Hcover 0) as (i & (s & e & Hi & Hse) & _); [lia|].
  destruct i as [|[|i]]; simpl in Hi; try discriminate.
  injection Hi as <- <-. lia.
Qed.

(** ** The worker count *)

Lemma no_thread_no_outcome {F : Type} `{FloatOps F}
    (boids : list (Boid F)) (deltaTime : F) (final : list (Boid F)) :
  ~ update_boids_parallel 0 boids deltaTime final.
Proof. intros (bounds & ws & Hb & _). discriminate Hb. Qed.

(** C4 (amended). The worker count is read once from the hardware
    concurrency and is that value, with no default: it is at least 1, and
    [N / T] is defined, exactly when the library reports a nonzero count.
    When it reports 0 the batch-size computation divides by zero. *)
Theorem worker_count_is_hardware_concurrency (hc N : Z) :
  0 <= hc <= UINT_MAX ->
  NUM_THREADS hc = hc
  /\ (1 <= NUM_THREADS hc <-> hc <> 0)
  /\ (batch_size N (NUM_THREADS hc) <> None <-> hc <> 0)
  /\ (hc = 0 -> batch_bounds N (NUM_THREADS hc) = None).
Proof.
  intros Hhc. unfold NUM_THREADS, batch_bounds, batch_size.
  destruct (Z.eqb_spec hc 0) as [->|Hne].
  - repeat split; try lia; try congruence.
  - repeat split; try lia; try congruence.
Qed.

Lemma worker_count_is_hardware_concurrency_witness :
  NUM_THREADS 8 = 8
  /\ (1 <= NUM_THREADS 8 <-> 8 <> 0)
  /\ (batch_size 200 (NUM_THREADS 8) <> None <-> 8 <> 0)
  /\ (8 = 0 -> batch_bounds 200 (NUM_THREADS 8) = None).
Proof.
  apply (worker_count_is_hardware_concurrency 8 200); unfold UINT_MAX; lia.
Defined.

(** C4 as stated fails when the hardware concurrency is not computable: the
    call returns 0, the worker count is 0 and the division is undefined. *)
Lemma worker_count_zero :
  NUM_THREADS 0 = 0 /\ ~ 1 <= NUM_THREADS 0 /\ batch_size 200 (NUM_THREADS 0) = None.
Proof. repeat split. unfold NUM_THREADS; lia. Qed.

(** ** The bias ramp *)

Section BiasRamp.
Context {F : Type} `{FloatOps F}.

Lemma cohesion_alignment_biasval b acc :
  biasval (cohesion_alignment b acc) = biasval b.
Proof. stage b. Qed.
Lemma separation_biasval b acc dt : biasval (separation b acc dt) = biasval b.
Proof. stage b. Qed.
Lemma boundary_turn_biasval b : biasval (boundary_turn b) = biasval b.
Proof. stage b. Qed.
Lemma apply_bias_biasval b : biasval (apply_bias b) = biasval b.
Proof. stage b. Qed.
Lemma speed_control_biasval b : biasval (speed_control b) = biasval b.
Proof. stage b. Qed.
Lemma integrate_biasval b dt : biasval (integrate b dt) = biasval b.
Proof. stage b. Qed.

Lemma before_bias_biasval b acc dt : biasval (before_bias b acc dt) = biasval b.
Proof.
  unfold before_bias.
  now rewrite boundary_turn_biasval, separation_biasval, cohesion_alignment_biasval.
Qed.

Lemma before_bias_group b acc dt :
  scout_group (before_bias b acc dt) = scout_group b.
Proof.
  unfold before_bias.
  now rewrite boundary_turn_group, separation_group, cohesion_alignment_group.
Qed.

Lemma bias_dynamics_biasval b :
  scout_group b = 1 \/ scout_group b = 2 ->
  biasval (bias_dynamics b) = ramp (heading_matches b) (biasval b).
Proof.
  unfold bias_dynamics, heading_matches, ramp.
  intros [Hg|Hg]; rewrite Hg; simpl.
  - destruct (fgt (vx b) (of_int 0)); reflexivity.
  - destruct (flt (vx b) (of_int 0)); reflexivity.
Qed.

Lemma tick_biasval b acc dt :
  scout_group b = 1 \/ scout_group b = 2 ->
  biasval (tick b acc dt)
  = ramp (heading_matches (before_bias b acc dt)) (biasval b).
Proof.
  intros Hg. unfold tick, velocity_rule, pre_clamp.
  rewrite integrate_biasval, speed_control_biasval, apply_bias_biasval.
  fold (before_bias b acc dt).
  rewrite bias_dynamics_biasval by now rewrite before_bias_group.
  now rewrite before_bias_biasval.
Qed.

End BiasRamp.

(** *** The values [biasval] takes in binary32 *)

Lemma same_float_eq a b : same_float a b = true -> a = b.
Proof.
  destruct a, b; simpl; try discriminate; auto.
  - intros E; apply Bool.eqb_prop in E; now subst.
  - intros E; apply Bool.eqb_prop in E; now subst.
  - intros E. apply andb_prop in E as [E E3]. apply andb_prop in E as [E1 E2].
    apply Bool.eqb_prop in E1. apply Pos.eqb_eq in E2. apply Z.eqb_eq in E3.
    now subst.
Qed.

Lemma same_float_refl a : same_float a a = true.
Proof.
  destruct a; simpl; auto using Bool.eqb_reflx.
  now rewrite Bool.eqb_reflx, Pos.eqb_refl, Z.eqb_refl.
Qed.

Lemma member_In a l : member a l = true <-> In a l.
Proof.
  unfold member. rewrite existsb_exists. split.
  - intros (b & Hb & E). apply same_float_eq in E. now subst.
  - intros Ha. exists a. split; [assumption|apply same_float_refl].
Qed.

Lemma bias_values_closed :
  forallb (fun v => member (bias_up v) bias_values
                    && member (bias_down v) bias_values
                    && in_bias_range v) bias_values = true.
Proof. vm_compute. reflexivity. Qed.

Lemma bias_values_step v up :
  In v bias_values -> In (ramp up v) bias_values.
Proof.
  intros Hv. pose proof bias_values_closed as Hc.
  rewrite forallb_forall in Hc. specialize (Hc v Hv).
  apply andb_prop in Hc as [Hc _]. apply andb_prop in Hc as [Hu Hd].
  destruct up; unfold ramp; apply member_In; assumption.
Qed.

Lemma bias_values_in_range v : In v bias_values -> in_bias_range v = true.
Proof.
  intros Hv. pose proof bias_values_closed as Hc.
  rewrite forallb_forall in Hc. specialize (Hc v Hv).
  now apply andb_prop in Hc as [_ Hc].
Qed.

Lemma bias_values_first up : In (ramp up (of_int 0)) bias_values.
Proof. apply member_In. destruct up; vm_compute; reflexivity. Qed.

Lemma agent_run_bias_values ticks :
  forall b : Boid B32.float,
    scout_group b = 1 \/ scout_group b = 2 ->
    In (biasval b) bias_values ->
    In (biasval (agent_run b ticks)) bias_values.
Proof.
  induction ticks as [|[acc dt] ticks IH]; intros b Hg Hb; simpl; auto.
  apply IH.
  - now rewrite tick_group.
  - rewrite tick_biasval by assumption. now apply bias_values_step.
Qed.

Lemma in_bias_range_positive v :
  in_bias_range v = true -> B32.ltb (of_int 0) v = true.
Proof.
  unfold in_bias_range. intros Hr. apply andb_prop in Hr as [Hlo _].
  destruct v as [s|s| |s m e]; try discriminate Hlo; destruct s;
    try discriminate Hlo; reflexivity.
Qed.

(** C5. A BiasRight or BiasLeft agent, initialised with [biasval = 0]: each
    tick replaces [biasval] by [min(MAX_BIAS, biasval + BIAS_INCREMENT)] when
    the sign of [vx] (as it reaches the bias block) matches the group's
    direction and by [max(BIAS_INCREMENT, biasval - BIAS_INCREMENT)]
    otherwise; after the first tick, and after every later one, [biasval]
    lies in [[BIAS_INCREMENT, MAX_BIAS]] and is positive, whatever the scans
    and elapsed times are; in particular in every run of the sequential
    program. *)
Theorem bias_stays_in_range :
  (forall (b : Boid B32.float) acc dt,
     scout_group b = 1 \/ scout_group b = 2 ->
     biasval (tick b acc dt)
     = if heading_matches (before_bias b acc dt)
       then std_min MAX_BIAS (fadd (biasval b) BIAS_INCREMENT)
       else std_max BIAS_INCREMENT (fsub (biasval b) BIAS_INCREMENT))
  /\ (forall (b : Boid B32.float) ticks,
        scout_group b = 1 \/ scout_group b = 2 ->
        biasval b = of_int 0 -> ticks <> [] ->
        in_bias_range (biasval (agent_run b ticks)) = true
        /\ B32.ltb (of_int 0) (biasval (agent_run b ticks)) = true)
  /\ (forall (boids : list (Boid B32.float)) deltas i b,
        nth_error boids i = Some b ->
        scout_group b = 1 \/ scout_group b = 2 ->
        biasval b = of_int 0 -> deltas <> [] ->
        exists b', nth_error (run boids deltas) i = Some b'
                   /\ in_bias_range (biasval b') = true).
Proof.
  assert (Hagent : forall (b : Boid B32.float) ticks,
            scout_group b = 1 \/ scout_group b = 2 ->
            biasval b = of_int 0 -> ticks <> [] ->
            in_bias_range (biasval (agent_run b ticks)) = true).
  { intros b [|[acc dt] ticks] Hg H0 Hne; [congruence|]. simpl.
    apply bias_values_in_range, agent_run_bias_values.
    - now rewrite tick_group.
    - rewrite tick_biasval, H0 by assumption. apply bias_values_first. }
  split; [|split].
  - intros b acc dt Hg. now rewrite tick_biasval.
  - intros b ticks Hg H0 Hne.
    pose proof (Hagent b ticks Hg H0 Hne) as Hr.
    split; [exact Hr|now apply in_bias_range_positive].
  - intros boids deltas i b Hi Hg H0 Hne.
    destruct (run_pointwise deltas boids i b Hi) as [ticks [Hd Hr]].
    exists (agent_run b ticks). split; [exact Hr|].
    apply Hagent; auto. intros ->. simpl in Hd. congruence.
Qed.

Lemma bias_stays_in_range_witness :
  exists b', nth_error (run frame_store [of_int 1; of_dec 5 1]) 0 = Some b'
             /\ in_bias_range (biasval b') = true.
Proof.
  destruct bias_stays_in_range as (_ & _ & Hrun).
  apply (Hrun frame_store [of_int 1; of_dec 5 1] 0%nat
           (mkBoid (of_int 100) (of_int 100) (of_int 12) (of_int 0) (of_int 0) 1)).
  - reflexivity.
  - left; reflexivity.
  - reflexivity.
  - discriminate.
Defined.

(** ** Bias application *)

Lemma exact_lt_true (a b : R) : (a < b)%R -> Exact.ltb a b = true.
Proof. intros Hlt. unfold Exact.ltb. destruct (Rlt_dec a b); tauto. Qed.

Lemma exact_lt_false (a b : R) : (b <= a)%R -> Exact.ltb a b = false.
Proof. intros Hle. unfold Exact.ltb. destruct (Rlt_dec a b); [lra|reflexivity]. Qed.

(** C9. A BiasRight agent that reaches the bias blocks with [biasval = 0]
    and [vx = 5]: the ramp sets [biasval] to [BIAS_INCREMENT] (0.005), and the
    bias is applied with this new value, so that [vx] becomes
    [(1 - 0.005) * 5 + 0.005], which is the float [4.98f] in binary32 and the
    number 4.98 in exact arithmetic.  In general the two blocks leave
    [vx = (1 - biasval') * vx + biasval'] for BiasRight and
    [vx = (1 - biasval') * vx - biasval'] for BiasLeft, where [biasval'] is
    the value the ramp has just stored. *)
Theorem bias_right_scenario :
  (forall px py pvy : B32.float,
     apply_bias (bias_dynamics (mkBoid px py (of_int 5) pvy (of_int 0) 1))
     = mkBoid px py (of_dec 498 2) pvy BIAS_INCREMENT 1)
  /\ (forall px py pvy : R,
        apply_bias (bias_dynamics (mkBoid px py (of_int 5) pvy (of_int 0) 1))
        = mkBoid px py (of_dec 498 2) pvy BIAS_INCREMENT 1)
  /\ (forall (F : Type) (ops : FloatOps F) (px py pvx pvy bias : F),
        let right := bias_dynamics (mkBoid px py pvx pvy bias 1) in
        let left := bias_dynamics (mkBoid px py pvx pvy bias 2) in
        vx (apply_bias right)
          = fadd (fmul (fsub (of_int 1) (biasval right)) pvx) (biasval right)
        /\ vx (apply_bias left)
          = fsub (fmul (fsub (of_int 1) (biasval left)) pvx) (biasval left)).
Proof.
  split; [|split].
  - intros px py pvy. vm_compute. reflexivity.
  - intros px py pvy.
    unfold bias_dynamics; cbn [scout_group Z.eqb Pos.eqb vx biasval].
    unfold fgt; cbn [flt exact of_int].
    rewrite (exact_lt_true 0 5) by lra.
    unfold apply_bias, set_biasval, set_vx;
      cbn [scout_group Z.eqb Pos.eqb vx vy x y biasval].
    assert (Hup : bias_up (F := R) 0%R = BIAS_INCREMENT).
    { unfold bias_up, std_min, MAX_BIAS, BIAS_INCREMENT;
        cbn [flt fadd of_dec exact]; unfold Exact.dec.
      rewrite exact_lt_true by (simpl; lra). simpl; lra. }
    rewrite Hup. f_equal.
    unfold BIAS_INCREMENT; cbn [fadd fsub fmul of_int of_dec exact];
      unfold Exact.dec; simpl; lra.
  - intros F ops px py pvx pvy bias; split.
    + unfold bias_dynamics, apply_bias; cbn [scout_group Z.eqb vx].
      destruct (fgt pvx (of_int 0)); reflexivity.
    + unfold bias_dynamics, apply_bias; cbn [scout_group Z.eqb vx Pos.eqb].
      destruct (flt pvx (of_int 0)); reflexivity.
Qed.

(** ** The velocity rule does not move the agent *)

Section PositionFrame.
Context {F : Type} `{FloatOps F}.

Lemma cohesion_alignment_pos b acc :
  x (cohesion_alignment b acc) = x b /\ y (cohesion_alignment b acc) = y b.
Proof. split; stage b. Qed.
Lemma separation_pos b acc dt :
  x (separation b acc dt) = x b /\ y (separation b acc dt) = y b.
Proof. split; stage b. Qed.
Lemma boundary_turn_pos b :
  x (boundary_turn b) = x b /\ y (boundary_turn b) = y b.
Proof. split; stage b. Qed.
Lemma bias_dynamics_pos b :
  x (bias_dynamics b) = x b /\ y (bias_dynamics b) = y b.
Proof. split; stage b. Qed.
Lemma apply_bias_pos b :
  x (apply_bias b) = x b /\ y (apply_bias b) = y b.
Proof. split; stage b. Qed.
Lemma speed_control_pos b :
  x (speed_control b) = x b /\ y (speed_control b) = y b.
Proof. split; stage b. Qed.

Lemma pre_clamp_pos b acc dt :
  x (pre_clamp b acc dt) = x b /\ y (pre_clamp b acc dt) = y b.
Proof.
  unfold pre_clamp.
  destruct (apply_bias_pos (bias_dynamics (boundary_turn
              (separation (cohesion_alignment b acc) acc dt)))) as [-> ->].
  destruct (bias_dynamics_pos (boundary_turn
              (separation (cohesion_alignment b acc) acc dt))) as [-> ->].
  destruct (boundary_turn_pos (separation (cohesion_alignment b acc) acc dt))
    as [-> ->].
  destruct (separation_pos (cohesion_alignment b acc) acc dt) as [-> ->].
  apply cohesion_alignment_pos.
Qed.

Lemma velocity_rule_pos b acc dt :
  x (velocity_rule b acc dt) = x b /\ y (velocity_rule b acc dt) = y b.
Proof.
  unfold velocity_rule.
  destruct (speed_control_pos (pre_clamp b acc dt)) as [-> ->].
  apply pre_clamp_pos.
Qed.

End PositionFrame.

(** ** Infinities and NaN in binary32 *)

Ltac by_cases_on a :=
  destruct a as [[|]|[|]| |[|] ? ?]; try discriminate; try reflexivity.

Lemma nan_not_finite a : nan a -> not_finite a.
Proof. unfold nan, not_finite. by_cases_on a. Qed.

Lemma add_not_finite_l a b : not_finite a -> not_finite (fadd a b).
Proof. unfold not_finite. by_cases_on a; by_cases_on b. Qed.
Lemma add_not_finite_r a b : not_finite a -> not_finite (fadd b a).
Proof. unfold not_finite. by_cases_on a; by_cases_on b. Qed.
Lemma sub_not_finite_l a b : not_finite a -> not_finite (fsub a b).
Proof. unfold not_finite. by_cases_on a; by_cases_on b. Qed.
Lemma mul_not_finite_l a b : not_finite a -> not_finite (fmul a b).
Proof. unfold not_finite. by_cases_on a; by_cases_on b. Qed.
Lemma mul_not_finite_r a b : not_finite a -> not_finite (fmul b a).
Proof. unfold not_finite. by_cases_on a; by_cases_on b. Qed.
Lemma div_not_finite_l a b : not_finite a -> not_finite (fdiv a b).
Proof. unfold not_finite. by_cases_on a; by_cases_on b. Qed.

Lemma add_nan_l a b : nan a -> nan (fadd a b).
Proof. unfold nan. by_cases_on a. Qed.
Lemma add_nan_r a b : nan a -> nan (fadd b a).
Proof. unfold nan. by_cases_on a; by_cases_on b. Qed.
Lemma sub_nan_l a b : nan a -> nan (fsub a b).
Proof. unfold nan. by_cases_on a. Qed.
Lemma mul_nan_l a b : nan a -> nan (fmul a b).
Proof. unfold nan. by_cases_on a. Qed.
Lemma mul_nan_r a b : nan a -> nan (fmul b a).
Proof. unfold nan. by_cases_on a; by_cases_on b. Qed.
Lemma div_nan_l a b : nan a -> nan (fdiv a b).
Proof. unfold nan. by_cases_on a. Qed.

(** Division by a zero never gives a finite number, and [0 / 0] is NaN. *)
Lemma div_by_zero_not_finite a z :
  B32.is_zero z = true -> not_finite (fdiv a z).
Proof. unfold not_finite. by_cases_on z; by_cases_on a. Qed.

Lemma zero_div_by_zero_nan a z :
  B32.is_zero a = true -> B32.is_zero z = true -> nan (fdiv a z).
Proof. unfold nan. by_cases_on z; by_cases_on a. Qed.

Lemma zero_below_MIN_SPEED z :
  B32.is_zero z = true -> flt z MIN_SPEED = true.
Proof. by_cases_on z. Qed.

(** *** A corrupted component stays corrupted

    [P] is a property of floats that every arithmetic operation of the
    velocity rule propagates from an operand to its result. *)
Section Absorbing.
Variable P : B32.float -> Prop.
Hypothesis P_add_l : forall a b, P a -> P (fadd a b).
Hypothesis P_add_r : forall a b, P a -> P (fadd b a).
Hypothesis P_sub_l : forall a b, P a -> P (fsub a b).
Hypothesis P_mul_l : forall a b, P a -> P (fmul a b).
Hypothesis P_mul_r : forall a b, P a -> P (fmul b a).
Hypothesis P_div_l : forall a b, P a -> P (fdiv a b).

Ltac absorb b :=
  destruct b;
  unfold cohesion_alignment, separation, boundary_turn, bias_dynamics,
    apply_bias, speed_control, speed_of, integrate;
  stage_simpl; intros;
  repeat (match goal with
          | |- context [if ?c then _ else _] =>
              lazymatch c with
              | context [if _ then _ else _] => fail
              | _ => destruct c
              end
          end; stage_simpl);
  auto 8.

Lemma cohesion_alignment_vx b acc : P (vx b) -> P (vx (cohesion_alignment b acc)).
Proof. absorb b. Qed.
Lemma cohesion_alignment_vy b acc : P (vy b) -> P (vy (cohesion_alignment b acc)).
Proof. absorb b. Qed.
Lemma separation_vx b acc dt : P (vx b) -> P (vx (separation b acc dt)).
Proof. absorb b. Qed.
Lemma separation_vy b acc dt : P (vy b) -> P (vy (separation b acc dt)).
Proof. absorb b. Qed.
Lemma boundary_turn_vx b : P (vx b) -> P (vx (boundary_turn b)).
Proof. absorb b. Qed.
Lemma boundary_turn_vy b : P (vy b) -> P (vy (boundary_turn b)).
Proof. absorb b. Qed.
Lemma bias_dynamics_vx b : P (vx b) -> P (vx (bias_dynamics b)).
Proof. absorb b. Qed.
Lemma bias_dynamics_vy b : P (vy b) -> P (vy (bias_dynamics b)).
Proof. absorb b. Qed.
Lemma apply_bias_vx b : P (vx b) -> P (vx (apply_bias b)).
Proof. absorb b. Qed.
Lemma apply_bias_vy b : P (vy b) -> P (vy (apply_bias b)).
Proof. absorb b. Qed.
Lemma speed_control_vx b : P (vx b) -> P (vx (speed_control b)).
Proof. absorb b. Qed.
Lemma speed_control_vy b : P (vy b) -> P (vy (speed_control b)).
Proof. absorb b. Qed.
Lemma integrate_vx b dt : P (vx b) -> P (vx (integrate b dt)).
Proof. absorb b. Qed.
Lemma integrate_vy b dt : P (vy b) -> P (vy (integrate b dt)).
Proof. absorb b. Qed.
Lemma integrate_x b dt : P (x b) \/ P (vx b) -> P (x (integrate b dt)).
Proof. absorb b. destruct H; auto. Qed.
Lemma integrate_y b dt : P (y b) \/ P (vy b) -> P (y (integrate b dt)).
Proof. absorb b. destruct H; auto. Qed.

Lemma pre_clamp_vx b acc dt : P (vx b) -> P (vx (pre_clamp b acc dt)).
Proof.
  intros Hb. unfold pre_clamp.
  now apply apply_bias_vx, bias_dynamics_vx, boundary_turn_vx, separation_vx,
    cohesion_alignment_vx.
Qed.

Lemma pre_clamp_vy b acc dt : P (vy b) -> P (vy (pre_clamp b acc dt)).
Proof.
  intros Hb. unfold pre_clamp.
  now apply apply_bias_vy, bias_dynamics_vy, boundary_turn_vy, separation_vy,
    cohesion_alignment_vy.
Qed.

Lemma tick_vx b acc dt : P (vx b) -> P (vx (tick b acc dt)).
Proof.
  intros Hb. unfold tick, velocity_rule.
  now apply integrate_vx, speed_control_vx, pre_clamp_vx.
Qed.

Lemma tick_vy b acc dt : P (vy b) -> P (vy (tick b acc dt)).
Proof.
  intros Hb. unfold tick, velocity_rule.
  now apply integrate_vy, speed_control_vy, pre_clamp_vy.
Qed.

Lemma tick_x b acc dt : P (x b) -> P (x (tick b acc dt)).
Proof.
  intros Hb. unfold tick. apply integrate_x. left.
  now destruct (velocity_rule_pos b acc dt) as [-> _].
Qed.

Lemma tick_y b acc dt : P (y b) -> P (y (tick b acc dt)).
Proof.
  intros Hb. unfold tick. apply integrate_y. left.
  now destruct (velocity_rule_pos b acc dt) as [_ ->].
Qed.

Lemma agent_run_absorbs ticks :
  forall b,
    (P (vx b) -> P (vx (agent_run b ticks))) /\
    (P (vy b) -> P (vy (agent_run b ticks))) /\
    (P (x b) -> P (x (agent_run b ticks))) /\
    (P (y b) -> P (y (agent_run b ticks))).
Proof.
  induction ticks as [|[acc dt] ticks IH]; intros b; simpl; [tauto|].
  destruct (IH (tick b acc dt)) as (Hvx & Hvy & Hx & Hy).
  repeat split; intros Hb.
  - now apply Hvx, tick_vx.
  - now apply Hvy, tick_vy.
  - now apply Hx, tick_x.
  - now apply Hy, tick_y.
Qed.

End Absorbing.

(** ** Speed control in binary32 *)

Lemma MIN_SPEED_binary32 :
  @MIN_SPEED B32.float binary32 = S754_finite false 10485760 (-20).
Proof. reflexivity. Qed.

Lemma MAX_SPEED_binary32 :
  @MAX_SPEED B32.float binary32 = S754_finite false 10485760 (-18).
Proof. reflexivity. Qed.

Ltac compare_with_bounds s :=
  unfold in_speed_range in *;
  rewrite ?MIN_SPEED_binary32, ?MAX_SPEED_binary32 in *;
  destruct s as [[|]|[|]| |[|] m e]; try discriminate; try reflexivity;
  cbv [clamp fmax fmin flt fgt binary32 B32.max B32.min B32.ltb B32.leb
       B32.is_nan SFltb SFleb SFcompare in_speed_range andb] in *;
  repeat match goal with
         | H : context [Z.compare ?a ?b] |- _ => destruct (Z.compare_spec a b)
         | |- context [Z.compare ?a ?b] => destruct (Z.compare_spec a b)
         end;
  try lia; try discriminate; try reflexivity;
  change (Pos.compare_cont Eq 10485760 m)
    with (Pos.compare_cont (CompOpp Eq) 10485760 m) in *;
  rewrite <- ?Pos.compare_cont_antisym in *;
  destruct (Pos.compare_cont Eq m 10485760); cbv [CompOpp] in *;
  try discriminate; try reflexivity.

Lemma clamp_below (s : B32.float) :
  flt s MIN_SPEED = true -> clamp s MIN_SPEED MAX_SPEED = MIN_SPEED.
Proof.
  intros Hs. compare_with_bounds s.
Qed.

Lemma clamp_above (s : B32.float) :
  flt MAX_SPEED s = true -> clamp s MIN_SPEED MAX_SPEED = MAX_SPEED.
Proof. intros Hs. compare_with_bounds s. Qed.

Lemma below_not_above (s : B32.float) :
  flt s MIN_SPEED = true -> fgt s MAX_SPEED = false.
Proof. intros Hs. compare_with_bounds s. Qed.

Lemma above_not_below (s : B32.float) :
  fgt s MAX_SPEED = true -> flt s MIN_SPEED = false.
Proof. intros Hs. compare_with_bounds s. Qed.

Lemma in_speed_range_no_clamp (s : B32.float) :
  in_speed_range s = true ->
  flt s MIN_SPEED = false /\ fgt s MAX_SPEED = false.
Proof.
  intros Hs. split; compare_with_bounds s.
Qed.

Lemma no_clamp_in_speed_range (s : B32.float) :
  B32.is_nan s = false ->
  flt s MIN_SPEED = false -> fgt s MAX_SPEED = false ->
  in_speed_range s = true.
Proof.
  intros Hn Hlo Hhi. compare_with_bounds s.
Qed.

Lemma nan_no_clamp (s : B32.float) :
  B32.is_nan s = true -> flt s MIN_SPEED = false /\ fgt s MAX_SPEED = false.
Proof. intros Hs. split; compare_with_bounds s. Qed.

Lemma clamp_zero (z : B32.float) :
  B32.is_zero z = true -> clamp z MIN_SPEED MAX_SPEED = MIN_SPEED.
Proof. intros Hz. apply clamp_below. now apply zero_below_MIN_SPEED. Qed.

(** ** Zero speed *)

Lemma speed_control_at_zero (b : Boid B32.float) :
  B32.is_zero (speed_of b) = true ->
  speed_control b
  = set_vy (set_vx b (fmul (fdiv (vx b) (speed_of b)) MIN_SPEED))
           (fmul (fdiv (vy b) (speed_of b)) MIN_SPEED).
Proof.
  intros Hz. unfold speed_control.
  rewrite (zero_below_MIN_SPEED _ Hz), (clamp_zero _ Hz). reflexivity.
Qed.

(** C1 (amended). If the pre-clamp speed of an agent is exactly 0, the
    speed-clamp branch is taken and both components are divided by that
    zero: the velocity and, with the position update of the same tick, the
    position stop being finite, and they are never finite again in any later
    tick, whatever the scans and elapsed times.  A component that was itself
    zero becomes NaN and stays NaN, together with its coordinate; a nonzero
    component whose square underflowed becomes an infinity instead. *)
Theorem zero_speed_corrupts_agent
    (b : Boid B32.float) (acc : Scan B32.float) (dt : B32.float)
    (ticks : list (Scan B32.float * B32.float)) :
  let pre := pre_clamp b acc dt in
  let after := agent_run (tick b acc dt) ticks in
  B32.is_zero (speed_of pre) = true ->
  velocity_rule b acc dt
  = set_vy (set_vx pre (fmul (fdiv (vx pre) (speed_of pre)) MIN_SPEED))
           (fmul (fdiv (vy pre) (speed_of pre)) MIN_SPEED)
  /\ not_finite (vx after) /\ not_finite (vy after)
  /\ not_finite (x after) /\ not_finite (y after)
  /\ (B32.is_zero (vx pre) = true -> nan (vx after) /\ nan (x after))
  /\ (B32.is_zero (vy pre) = true -> nan (vy after) /\ nan (y after)).
Proof.
  intros pre after Hz.
  assert (Hrule : velocity_rule b acc dt
            = set_vy (set_vx pre (fmul (fdiv (vx pre) (speed_of pre)) MIN_SPEED))
                     (fmul (fdiv (vy pre) (speed_of pre)) MIN_SPEED))
    by (apply speed_control_at_zero; exact Hz).
  assert (Hvx : vx (velocity_rule b acc dt)
                = fmul (fdiv (vx pre) (speed_of pre)) MIN_SPEED)
    by (rewrite Hrule; reflexivity).
  assert (Hvy : vy (velocity_rule b acc dt)
                = fmul (fdiv (vy pre) (speed_of pre)) MIN_SPEED)
    by (rewrite Hrule; reflexivity).
  (* what one tick does *)
  assert (Hinf : forall P : B32.float -> Prop,
            (forall a c, P a -> P (fadd a c)) ->
            (forall a c, P a -> P (fadd c a)) ->
            (forall a c, P a -> P (fmul a c)) ->
            (P (fdiv (vx pre) (speed_of pre)) ->
               P (vx (tick b acc dt)) /\ P (x (tick b acc dt)))
            /\ (P (fdiv (vy pre) (speed_of pre)) ->
               P (vy (tick b acc dt)) /\ P (y (tick b acc dt)))).
  { intros P Hl Hr Hm. unfold tick.
    split; intros Hq; split.
    - apply integrate_vx; auto. rewrite Hvx. auto.
    - apply integrate_x; auto. right. rewrite Hvx. auto.
    - apply integrate_vy; auto. rewrite Hvy. auto.
    - apply integrate_y; auto. right. rewrite Hvy. auto. }
  destruct (Hinf not_finite add_not_finite_l add_not_finite_r mul_not_finite_l)
    as [Hfx Hfy].
  destruct (Hinf nan add_nan_l add_nan_r mul_nan_l) as [Hnx Hny].
  destruct (Hfx (div_by_zero_not_finite _ _ Hz)) as [Hfvx Hfxx].
  destruct (Hfy (div_by_zero_not_finite _ _ Hz)) as [Hfvy Hfyy].
  destruct (agent_run_absorbs not_finite add_not_finite_l add_not_finite_r
              sub_not_finite_l mul_not_finite_l mul_not_finite_r
              div_not_finite_l ticks (tick b acc dt)) as (Rvx & Rvy & Rx & Ry).
  destruct (agent_run_absorbs nan add_nan_l add_nan_r sub_nan_l mul_nan_l
              mul_nan_r div_nan_l ticks (tick b acc dt)) as (Nvx & Nvy & Nx & Ny).
  split; [exact Hrule|].
  repeat split; unfold after; auto.
  - apply Nvx, Hnx. now apply zero_div_by_zero_nan.
  - apply Nx, Hnx. now apply zero_div_by_zero_nan.
  - apply Nvy, Hny. now apply zero_div_by_zero_nan.
  - apply Ny, Hny. now apply zero_div_by_zero_nan.
Qed.

Lemma zero_speed_corrupts_agent_witness :
  nan (vx (agent_run (tick resting_agent scan_init (of_int 1))
                     [(scan_init, of_int 1)]))
  /\ nan (x (agent_run (tick resting_agent scan_init (of_int 1))
                       [(scan_init, of_int 1)])).
Proof.
  destruct (zero_speed_corrupts_agent resting_agent scan_init (of_int 1)
              [(scan_init, of_int 1)]) as (_ & _ & _ & _ & _ & Hnan & _).
  - reflexivity.
  - apply Hnan. reflexivity.
Defined.

(** C1 as stated fails when the speed is zero because the squares underflow:
    an agent alone in the store with [vx = vy = 2^-100] has pre-clamp speed
    exactly 0, and one call of [update_boids] leaves it with velocity and
    position [+infinity], none of them NaN. *)
Lemma underflowed_speed_gives_infinity :
  B32.valid (vx creeping_agent) = true
  /\ speed_of (pre_clamp creeping_agent (scan [creeping_agent] 0 creeping_agent)
                         (of_int 1)) = S754_zero false
  /\ update_boids [creeping_agent] (of_int 1)
     = [mkBoid (S754_infinity false) (S754_infinity false)
               (S754_infinity false) (S754_infinity false) (of_int 0) 0]
  /\ ~ (forall b', nth_error (update_boids [creeping_agent] (of_int 1)) 0 = Some b' ->
                   nan (vx b') /\ nan (vy b') /\ nan (x b') /\ nan (y b')).
Proof.
  assert (Hupd : update_boids [creeping_agent] (of_int 1)
            = [mkBoid (S754_infinity false) (S754_infinity false)
                      (S754_infinity false) (S754_infinity false) (of_int 0) 0])
    by (vm_compute; reflexivity).
  repeat split; try (vm_compute; reflexivity).
  rewrite Hupd. intros Hall.
  destruct (Hall _ eq_refl) as [Hnan _]. discriminate Hnan.
Qed.

(** ** Speed control in exact arithmetic *)

Lemma exact_speed_nonneg (b : Boid R) : (0 <= speed_of b)%R.
Proof. unfold speed_of; cbn [fsqrt exact]. apply sqrt_pos. Qed.

Lemma exact_speed_square (b : Boid R) :
  (speed_of b * speed_of b = vx b * vx b + vy b * vy b)%R.
Proof.
  unfold speed_of; cbn [fsqrt fadd fmul exact]. apply sqrt_sqrt. nra.
Qed.

(** Dividing a vector by its norm [s] and multiplying by [c] gives a vector
    of norm [c]. *)
Lemma exact_rescaled_speed (u v s c : R) :
  (0 < s)%R -> (s * s = u * u + v * v)%R -> (0 <= c)%R ->
  sqrt (u / s * c * (u / s * c) + v / s * c * (v / s * c)) = c.
Proof.
  intros Hs Hsq Hc.
  replace (u / s * c * (u / s * c) + v / s * c * (v / s * c))%R
    with (c * c)%R.
  - now apply sqrt_square.
  - assert (Hq : ((u * u + v * v) / (s * s) = 1)%R)
      by (rewrite <- Hsq; field; lra).
    transitivity (c * c * ((u * u + v * v) / (s * s)))%R.
    + rewrite Hq. ring.
    + field. lra.
Qed.

Lemma exact_MIN_SPEED : @MIN_SPEED R exact = 10%R.
Proof. unfold MIN_SPEED; cbn [of_dec exact]; unfold Exact.dec; simpl; lra. Qed.

Lemma exact_MAX_SPEED : @MAX_SPEED R exact = 40%R.
Proof. unfold MAX_SPEED; cbn [of_dec exact]; unfold Exact.dec; simpl; lra. Qed.

Lemma exact_clamp (s : R) :
  clamp s MIN_SPEED MAX_SPEED
  = if Rlt_dec s 10 then 10%R else if Rlt_dec 40 s then 40%R else s.
Proof.
  unfold clamp; cbn [fmax fmin exact].
  rewrite exact_MIN_SPEED, exact_MAX_SPEED.
  unfold Rmax, Rmin.
  destruct (Rlt_dec s 10), (Rlt_dec 40 s), (Rle_dec s 40);
    try lra; destruct (Rle_dec 10 s); try lra; destruct (Rle_dec 10 40); lra.
Qed.

Lemma exact_speed_control (b : Boid R) :
  speed_control b
  = if Rlt_dec (speed_of b) 10 then
      set_vy (set_vx b (vx b / speed_of b * 10)%R) (vy b / speed_of b * 10)%R
    else if Rlt_dec 40 (speed_of b) then
      set_vy (set_vx b (vx b / speed_of b * 40)%R) (vy b / speed_of b * 40)%R
    else b.
Proof.
  unfold speed_control. rewrite exact_clamp.
  unfold fgt; cbn [flt fmul fdiv exact]; unfold Exact.ltb.
  rewrite exact_MIN_SPEED, exact_MAX_SPEED.
  destruct (Rlt_dec (speed_of b) 10), (Rlt_dec 40 (speed_of b));
    try lra; reflexivity.
Qed.

(** ** Rounding in binary32, from the definitions of [SpecFloat] *)

Lemma fexp32_eq e : fexp32 e = Z.max (e - 24) (-149).
Proof. reflexivity. Qed.

(** Number of binary digits. *)
Lemma digits2_pos_bounds (p : positive) :
  2 ^ (Zpos (digits2_pos p) - 1) <= Zpos p < 2 ^ Zpos (digits2_pos p).
Proof.
  induction p as [p IH|p IH|]; cbn [digits2_pos].
  - rewrite Pos2Z.inj_succ.
    replace (Z.succ (Zpos (digits2_pos p)) - 1) with (Zpos (digits2_pos p)) by lia.
    rewrite Z.pow_succ_r by lia.
    assert (2 ^ Zpos (digits2_pos p) = 2 * 2 ^ (Zpos (digits2_pos p) - 1)).
    { rewrite <- Z.pow_succ_r by lia. f_equal; lia. }
    lia.
  - rewrite Pos2Z.inj_succ.
    replace (Z.succ (Zpos (digits2_pos p)) - 1) with (Zpos (digits2_pos p)) by lia.
    rewrite Z.pow_succ_r by lia.
    assert (2 ^ Zpos (digits2_pos p) = 2 * 2 ^ (Zpos (digits2_pos p) - 1)).
    { rewrite <- Z.pow_succ_r by lia. f_equal; lia. }
    lia.
  - simpl. lia.
Qed.

Lemma Zdigits2_bounds (m : Z) :
  0 < m -> 2 ^ (Zdigits2 m - 1) <= m < 2 ^ Zdigits2 m.
Proof.
  destruct m as [|p|p]; try lia. intros _. apply digits2_pos_bounds.
Qed.

Lemma Zdigits2_nonneg (m : Z) : 0 <= Zdigits2 m.
Proof. destruct m; simpl; lia. Qed.

Lemma Zdigits2_pos (m : Z) : 0 < m -> 0 < Zdigits2 m.
Proof. destruct m; simpl; lia. Qed.

(** The number of digits is determined by the binade. *)
Lemma Zdigits2_unique (m d : Z) :
  0 < m -> 2 ^ (d - 1) <= m < 2 ^ d -> Zdigits2 m = d.
Proof.
  intros Hm Hd. pose proof (Zdigits2_bounds m Hm) as Hb.
  pose proof (Zdigits2_pos m Hm) as Hp.
  assert (0 < d).
  { destruct (Z_lt_le_dec 0 d) as [Hd0|Hd0]; [assumption|]. exfalso.
    destruct (Z.eq_dec d 0) as [->|Hne]; [simpl in Hd; lia|].
    rewrite (Z.pow_neg_r 2 d) in Hd by lia. lia. }
  destruct (Z.lt_trichotomy (Zdigits2 m) d) as [Hlt|[Heq|Hgt]]; [|exact Heq|].
  - assert (2 ^ Zdigits2 m <= 2 ^ (d - 1)) by (apply Z.pow_le_mono_r; lia). lia.
  - assert (2 ^ d <= 2 ^ (Zdigits2 m - 1)) by (apply Z.pow_le_mono_r; lia). lia.
Qed.

(** Shifting right. *)
Lemma shr_1_m mrs : 0 <= shr_m mrs -> shr_m (shr_1 mrs) = shr_m mrs / 2.
Proof.
  destruct mrs as [m r s]; cbn [shr_m shr_1]. intros Hm.
  destruct m as [|[p|p|]|p]; cbn [shr_m]; try lia; try reflexivity.
  - rewrite Pos2Z.inj_xI. apply Z.div_unique with 1; lia.
  - rewrite Pos2Z.inj_xO. apply Z.div_unique with 0; lia.
Qed.

Lemma shr_1_nonneg mrs : 0 <= shr_m mrs -> 0 <= shr_m (shr_1 mrs).
Proof.
  intros Hm. rewrite shr_1_m by assumption. apply Z.div_pos; lia.
Qed.

Lemma iter_shr_1_m (p : positive) :
  forall mrs, 0 <= shr_m mrs ->
    shr_m (iter_pos shr_1 p mrs) = shr_m mrs / 2 ^ Zpos p
    /\ 0 <= shr_m (iter_pos shr_1 p mrs).
Proof.
  induction p as [p IH|p IH|]; intros mrs Hm; cbn [iter_pos].
  - pose proof (shr_1_nonneg mrs Hm) as H1.
    destruct (IH (shr_1 mrs) H1) as [E2 H2].
    destruct (IH _ H2) as [E3 H3].
    split; [|exact H3].
    rewrite E3, E2, shr_1_m by assumption.
    rewrite !Z.div_div by (try lia; apply Z.pow_pos_nonneg; lia).
    f_equal. rewrite Pos2Z.inj_xI.
    rewrite <- Z.pow_add_r, <- Z.pow_succ_r by lia. f_equal; lia.
  - destruct (IH mrs Hm) as [E2 H2].
    destruct (IH _ H2) as [E3 H3].
    split; [|exact H3].
    rewrite E3, E2.
    rewrite !Z.div_div by (try lia; apply Z.pow_pos_nonneg; lia).
    f_equal. rewrite Pos2Z.inj_xO.
    rewrite <- Z.pow_add_r by lia. f_equal; lia.
  - split; [now apply shr_1_m|now apply shr_1_nonneg].
Qed.

Lemma shr_record_of_loc_m m l : shr_m (shr_record_of_loc m l) = m.
Proof. destruct l as [|[| |]]; reflexivity. Qed.

Lemma shr_fexp_m (m e : Z) (l : location) :
  0 <= m -> e <= fexp32 (Zdigits2 m + e) ->
  snd (shr_fexp B32.prec B32.emax m e l) = fexp32 (Zdigits2 m + e)
  /\ shr_m (fst (shr_fexp B32.prec B32.emax m e l))
     = m / 2 ^ (fexp32 (Zdigits2 m + e) - e).
Proof.
  intros Hm He. unfold shr_fexp, shr. fold (fexp32 (Zdigits2 m + e)).
  destruct (fexp32 (Zdigits2 m + e) - e) as [|p|p] eqn:Hn; cbn [fst snd].
  - rewrite shr_record_of_loc_m, Z.div_1_r. split; lia.
  - split; [lia|].
    destruct (iter_shr_1_m p (shr_record_of_loc m l)) as [E _].
    + now rewrite shr_record_of_loc_m.
    + now rewrite E, shr_record_of_loc_m.
  - lia.
Qed.

Lemma round_nearest_even_cases m l :
  round_nearest_even m l = m \/ round_nearest_even m l = m + 1.
Proof.
  destruct l as [|[| |]]; cbn [round_nearest_even]; auto.
  destruct (Z.even m); auto.
Qed.

Lemma pow2_pos (k : Z) : 0 <= k -> 0 < 2 ^ k.
Proof. intros Hk. apply Z.pow_pos_nonneg; lia. Qed.

Lemma pow2_split (a b : Z) : 0 <= a -> 0 <= b -> 2 ^ (a + b) = 2 ^ a * 2 ^ b.
Proof. intros Ha Hb. now apply Z.pow_add_r. Qed.

(** Digits of a truncated mantissa. *)
Lemma Zdigits2_shift (m n : Z) :
  0 < m -> 0 <= n -> 2 ^ n <= m ->
  Zdigits2 (m / 2 ^ n) = Zdigits2 m - n.
Proof.
  intros Hm Hn Hle.
  pose proof (Zdigits2_bounds m Hm) as [Hlo Hhi].
  pose proof (pow2_pos n Hn) as Hp.
  assert (Hdn : n < Zdigits2 m).
  { destruct (Z_lt_le_dec n (Zdigits2 m)) as [|Hge]; [assumption|].
    assert (2 ^ Zdigits2 m <= 2 ^ n) by (apply Z.pow_le_mono_r; lia). lia. }
  assert (Hq : 0 < m / 2 ^ n) by (apply Z.div_str_pos; lia).
  apply Zdigits2_unique; [assumption|]. split.
  - apply Z.div_le_lower_bound; [assumption|].
    rewrite <- pow2_split by lia.
    replace (n + (Zdigits2 m - n - 1)) with (Zdigits2 m - 1) by lia. exact Hlo.
  - apply Z.div_lt_upper_bound; [assumption|].
    rewrite <- pow2_split by lia.
    now replace (n + (Zdigits2 m - n)) with (Zdigits2 m) by lia.
Qed.

(** Digits after adding one unit. *)
Lemma Zdigits2_succ (m : Z) :
  0 < m ->
  Zdigits2 (m + 1) = Zdigits2 m
  \/ (Zdigits2 (m + 1) = Zdigits2 m + 1 /\ m + 1 = 2 ^ Zdigits2 m).
Proof.
  intros Hm. pose proof (Zdigits2_bounds m Hm) as [Hlo Hhi].
  pose proof (Zdigits2_pos m Hm) as Hd.
  destruct (Z.eq_dec (m + 1) (2 ^ Zdigits2 m)) as [Heq|Hne].
  - right. split; [|exact Heq].
    apply Zdigits2_unique; [lia|].
    replace (Zdigits2 m + 1 - 1) with (Zdigits2 m) by lia.
    rewrite (pow2_split (Zdigits2 m) 1) by lia.
    change (2 ^ 1) with 2. lia.
  - left. apply Zdigits2_unique; lia.
Qed.

Lemma binary_round_aux_finish sx mx ex lx :
  binary_round_aux B32.prec B32.emax sx mx ex lx
  = let '(mrs, e) := shr_fexp B32.prec B32.emax mx ex lx in
    finish sx (round_nearest_even (shr_m mrs) (loc_of_shr_record mrs)) e.
Proof. reflexivity. Qed.

Lemma canonical_mantissa_eq (m : positive) e :
  canonical_mantissa B32.prec B32.emax m e = true
  <-> fexp32 (Zdigits2 (Zpos m) + e) = e.
Proof. unfold canonical_mantissa. cbn [Zdigits2]. apply Z.eqb_eq. Qed.

Lemma finish_canonical sx m2 e1 :
  0 < m2 -> fexp32 (Zdigits2 m2 + e1) = e1 -> rounds_to sx m2 e1 (finish sx m2 e1).
Proof.
  intros Hm Hc. unfold finish.
  destruct (shr_fexp_m m2 e1 loc_Exact) as [He Hs]; [lia|lia|].
  destruct (shr_fexp B32.prec B32.emax m2 e1 loc_Exact) as [mrs e].
  cbn [fst snd] in He, Hs. rewrite Hc in He, Hs.
  rewrite Z.sub_diag, Z.div_1_r in Hs. rewrite Hs, He.
  destruct m2 as [|p|p]; try lia.
  right. exists p, e1. rewrite Z.sub_diag, Z.mul_1_r.
  repeat split; [lia|now apply canonical_mantissa_eq].
Qed.

Lemma finish_zero sx : rounds_to sx 0 (-149) (finish sx 0 (-149)).
Proof. left. split; reflexivity. Qed.

Lemma Zdigits2_pow2 k : 0 <= k -> Zdigits2 (2 ^ k) = k + 1.
Proof.
  intros Hk. apply Zdigits2_unique; [now apply pow2_pos|].
  replace (k + 1 - 1) with k by lia. split; [lia|].
  rewrite pow2_split by lia. change (2 ^ 1) with 2.
  pose proof (pow2_pos k Hk). lia.
Qed.

Lemma finish_carry sx k e1 :
  1 <= k -> fexp32 (k + 1 + e1) = e1 + 1 ->
  rounds_to sx (2 ^ k) e1 (finish sx (2 ^ k) e1).
Proof.
  intros Hk Hc. unfold finish.
  pose proof (pow2_pos k) as Hp.
  destruct (shr_fexp_m (2 ^ k) e1 loc_Exact) as [He Hs];
    [lia|rewrite Zdigits2_pow2 by lia; lia|].
  destruct (shr_fexp B32.prec B32.emax (2 ^ k) e1 loc_Exact) as [mrs e].
  cbn [fst snd] in He, Hs. rewrite Zdigits2_pow2 in He, Hs by lia.
  rewrite Hc in He, Hs.
  replace (e1 + 1 - e1) with 1 in Hs by lia. change (2 ^ 1) with 2 in Hs.
  assert (Hhalf : 2 ^ k = 2 * 2 ^ (k - 1)).
  { rewrite <- Z.pow_succ_r by lia. f_equal; lia. }
  assert (Hq : 2 ^ k / 2 = 2 ^ (k - 1)).
  { rewrite Hhalf, Z.mul_comm, Z.div_mul by lia. reflexivity. }
  rewrite Hq in Hs. rewrite Hs, He.
  pose proof (pow2_pos (k - 1)) as Hp1.
  destruct (2 ^ (k - 1)) as [|p|p] eqn:Hpk; try lia.
  right. exists p, (e1 + 1).
  replace (e1 + 1 - e1) with 1 by lia. change (2 ^ 1) with 2.
  repeat split; try lia.
  apply canonical_mantissa_eq. rewrite <- Hpk, Zdigits2_pow2 by lia.
  now replace (k - 1 + 1 + (e1 + 1)) with (k + 1 + e1) by lia.
Qed.

(** [binary_round_aux] truncates the mantissa to the exponent [e1] that the
    format assigns to the number and moves at most one unit up. *)
Lemma binary_round_aux_spec sx mx ex lx :
  0 <= mx -> ex <= fexp32 (Zdigits2 mx + ex) ->
  exists m2,
    (m2 = mx / 2 ^ (fexp32 (Zdigits2 mx + ex) - ex)
     \/ m2 = mx / 2 ^ (fexp32 (Zdigits2 mx + ex) - ex) + 1)
    /\ rounds_to sx m2 (fexp32 (Zdigits2 mx + ex))
         (binary_round_aux B32.prec B32.emax sx mx ex lx).
Proof.
  intros Hm He. rewrite binary_round_aux_finish.
  destruct (shr_fexp_m mx ex lx Hm He) as [He' Hs].
  destruct (shr_fexp B32.prec B32.emax mx ex lx) as [mrs e'].
  cbn [fst snd] in He', Hs. subst e'.
  remember (fexp32 (Zdigits2 mx + ex)) as e1 eqn:He1def.
  rewrite fexp32_eq in He1def.
  remember (e1 - ex) as n eqn:Hndef.
  remember (mx / 2 ^ n) as m1 eqn:Hm1def.
  remember (round_nearest_even (shr_m mrs) (loc_of_shr_record mrs)) as m2
    eqn:Hm2def.
  assert (Hcases : m2 = m1 \/ m2 = m1 + 1).
  { subst m2. rewrite Hs. apply round_nearest_even_cases. }
  exists m2. split; [exact Hcases|].
  assert (Hn : 0 <= n) by lia.
  pose proof (pow2_pos n Hn) as Hpn.
  assert (Hm1 : 0 <= m1) by (subst m1; apply Z.div_pos; lia).
  destruct (Z.eq_dec m1 0) as [Hz|Hnz].
  - (* everything was shifted out: the number is below the smallest
       subnormal *)
    assert (He1 : e1 = -149).
    { assert (Hlt : mx < 2 ^ n).
      { destruct (Z_lt_le_dec mx (2 ^ n)) as [|Hge]; [assumption|].
        assert (0 < m1) by (subst m1; apply Z.div_str_pos; lia). lia. }
      assert (Hd : Zdigits2 mx <= n).
      { destruct (Z.eq_dec mx 0) as [->|Hne]; [simpl; lia|].
        pose proof (Zdigits2_bounds mx ltac:(lia)) as [Hlo _].
        destruct (Z_le_gt_dec (Zdigits2 mx) n) as [|Hgt]; [assumption|].
        assert (2 ^ n <= 2 ^ (Zdigits2 mx - 1)) by (apply Z.pow_le_mono_r; lia).
        lia. }
      lia. }
    destruct Hcases as [->| ->]; rewrite Hz, He1.
    + apply finish_zero.
    + apply finish_canonical; [lia|reflexivity].
  - assert (Hm1pos : 0 < m1) by lia.
    assert (Hmx : 2 ^ n <= mx).
    { destruct (Z_lt_le_dec mx (2 ^ n)) as [Hlt|]; [|assumption].
      rewrite Hm1def, Z.div_small in Hnz by lia. lia. }
    assert (Hd1 : Zdigits2 m1 + e1 = Zdigits2 mx + ex).
    { rewrite Hm1def, Zdigits2_shift by lia. lia. }
    destruct Hcases as [->| ->].
    + apply finish_canonical; [assumption|].
      rewrite Hd1, fexp32_eq. lia.
    + destruct (Zdigits2_succ m1 Hm1pos) as [Hsame|[Hmore Hpow]].
      * apply finish_canonical; [lia|].
        rewrite Hsame, Hd1, fexp32_eq. lia.
      * pose proof (Zdigits2_pos m1 Hm1pos) as Hdp.
        destruct (Z.eq_dec (fexp32 (Zdigits2 (m1 + 1) + e1)) e1) as [Hc|Hc].
        -- apply finish_canonical; [lia|exact Hc].
        -- rewrite Hpow. apply finish_carry; [lia|].
           rewrite Hmore, fexp32_eq in Hc. rewrite fexp32_eq. lia.
Qed.

(** ** Real value of a binary32 datum *)

Lemma bpow_pos e : (0 < bpow e)%R.
Proof. unfold bpow. apply powerRZ_lt. lra. Qed.

Lemma bpow_add a b : bpow (a + b) = (bpow a * bpow b)%R.
Proof. unfold bpow. apply powerRZ_add. lra. Qed.

Lemma bpow_IZR k : 0 <= k -> bpow k = IZR (2 ^ k).
Proof.
  intros Hk. unfold bpow.
  rewrite <- (Z2Nat.id k Hk) at 1.
  rewrite <- pow_powerRZ.
  rewrite <- (Z2Nat.id k Hk) at 2.
  now rewrite pow_IZR.
Qed.

Lemma bpow_le a b : a <= b -> (bpow a <= bpow b)%R.
Proof.
  intros Hab. replace b with (a + (b - a)) by lia.
  rewrite bpow_add, (bpow_IZR (b - a)) by lia.
  assert (1 <= IZR (2 ^ (b - a)))%R.
  { apply IZR_le. pose proof (pow2_pos (b - a)). lia. }
  pose proof (bpow_pos a). nra.
Qed.

Lemma bpow_lt a b : a < b -> (bpow a < bpow b)%R.
Proof.
  intros Hab. replace b with (a + (b - a)) by lia.
  rewrite bpow_add, (bpow_IZR (b - a)) by lia.
  assert (2 <= IZR (2 ^ (b - a)))%R.
  { apply IZR_le. replace (b - a) with (1 + (b - a - 1)) by lia.
    rewrite pow2_split by lia. pose proof (pow2_pos (b - a - 1)).
    change (2 ^ 1) with 2. lia. }
  pose proof (bpow_pos a). nra.
Qed.

Lemma bpow_0 : bpow 0 = 1%R.
Proof. reflexivity. Qed.

Lemma bpow_1 : bpow 1 = 2%R.
Proof. unfold bpow. simpl. lra. Qed.

Lemma bpow_opp e : (bpow (- e) * bpow e = 1)%R.
Proof. rewrite <- bpow_add. replace (- e + e) with 0 by lia. apply bpow_0. Qed.

(** An integer mantissa moved to a smaller exponent. *)
Lemma IZR_shift (m a b : Z) :
  b <= a -> (IZR m * bpow a = IZR (m * 2 ^ (a - b)) * bpow b)%R.
Proof.
  intros Hab. rewrite mult_IZR, <- bpow_IZR by lia.
  rewrite Rmult_assoc, <- bpow_add. do 2 f_equal. lia.
Qed.

Lemma sign_of_abs s : Rabs (sign_of s) = 1%R.
Proof.
  destruct s; simpl; [|apply Rabs_R1].
  replace (-1)%R with (- (1))%R by lra. rewrite Rabs_Ropp. apply Rabs_R1.
Qed.

Lemma sign_of_xorb s t : sign_of (xorb s t) = (sign_of s * sign_of t)%R.
Proof. destruct s, t; simpl; lra. Qed.

Lemma sign_of_square s : (sign_of s * sign_of s = 1)%R.
Proof. destruct s; simpl; lra. Qed.

Lemma valid_finite_bounds s m e :
  B32.valid (S754_finite s m e) = true ->
  fexp32 (Zdigits2 (Zpos m) + e) = e /\ e <= 104.
Proof.
  unfold B32.valid, valid_binary, bounded. intros H.
  apply andb_prop in H as [Hc Hb].
  apply canonical_mantissa_eq in Hc. apply Z.leb_le in Hb.
  split; [exact Hc|exact Hb].
Qed.

(** Value and well-formedness of what [binary_round_aux] returns, when the
    rounded value stays below [2^128]. *)
Lemma rounds_to_value sx m2 e1 z :
  0 <= m2 -> rounds_to sx m2 e1 z ->
  (IZR m2 * bpow e1 < bpow 128)%R ->
  finite_valid z /\ B2R z = (sign_of sx * (IZR m2 * bpow e1))%R.
Proof.
  intros Hm [[-> ->]|(m3 & e3 & Hv & He & Hc & ->)] Hlt.
  - split; [split; reflexivity|]. simpl. lra.
  - assert (Hval : (IZR m2 * bpow e1 = IZR (Zpos m3) * bpow e3)%R).
    { rewrite <- Hv. symmetry. now apply IZR_shift. }
    assert (He3 : e3 <= 104).
    { destruct (Z_le_gt_dec e3 104) as [|Hgt]; [assumption|]. exfalso.
      apply canonical_mantissa_eq in Hc. rewrite fexp32_eq in Hc.
      assert (Hd : Zdigits2 (Zpos m3) = 24) by lia.
      pose proof (Zdigits2_bounds (Zpos m3) ltac:(lia)) as [Hlo _].
      rewrite Hd in Hlo.
      assert (bpow 128 <= IZR (Zpos m3) * bpow e3)%R.
      { replace 128 with (23 + 105) by lia. rewrite bpow_add.
        assert (bpow 23 <= IZR (Zpos m3))%R
          by (rewrite bpow_IZR by lia; now apply IZR_le).
        assert (bpow 105 <= bpow e3)%R by (apply bpow_le; lia).
        pose proof (bpow_pos 23). pose proof (bpow_pos 105). nra. }
      lra. }
    destruct (Z.leb_spec e3 104); [|lia].
    split.
    + split; [reflexivity|].
      unfold B32.valid, valid_binary, bounded. rewrite Hc. simpl.
      now apply Z.leb_le.
    + simpl. rewrite Hval. lra.
Qed.

Lemma ulp_rel_pos : (0 < ulp_rel)%R.
Proof. apply bpow_pos. Qed.

Lemma ulp_min_pos : (0 < ulp_min)%R.
Proof. apply bpow_pos. Qed.

Lemma ulp_rel_small : (ulp_rel <= 1 / 8388608)%R.
Proof.
  unfold ulp_rel.
  assert (H : (bpow (-23) * bpow 23 = 1)%R) by apply (bpow_opp 23).
  rewrite (bpow_IZR 23) in H by lia. change (2 ^ 23) with 8388608 in H.
  pose proof (bpow_pos (-23)). 
  apply Rmult_le_reg_r with 8388608%R; lra.
Qed.

Lemma ulp_rel_value : ulp_rel = (1 / 8388608)%R.
Proof.
  unfold ulp_rel.
  assert (H : (bpow (-23) * bpow 23 = 1)%R) by apply (bpow_opp 23).
  rewrite (bpow_IZR 23) in H by lia. change (2 ^ 23) with 8388608 in H.
  apply Rmult_eq_reg_r with 8388608%R; lra.
Qed.

(** The rounding error of [binary_round_aux] is at most one unit in the last
    place: [ulp_rel] relative to the exact value in the normal range,
    [ulp_min] absolute in the subnormal range. *)
Lemma round_aux_error sx mx ex lx (v : R) :
  0 <= mx -> ex <= fexp32 (Zdigits2 mx + ex) ->
  (IZR mx * bpow ex <= v < IZR (mx + 1) * bpow ex)%R ->
  (v <= bpow 127)%R ->
  finite_valid (binary_round_aux B32.prec B32.emax sx mx ex lx)
  /\ exists r : R,
       B2R (binary_round_aux B32.prec B32.emax sx mx ex lx) = (sign_of sx * r)%R
       /\ (0 <= r)%R /\ (Rabs (r - v) <= ulp_rel * v + ulp_min)%R.
Proof.
  intros Hm He [Hlo Hhi] Hmax.
  destruct (binary_round_aux_spec sx mx ex lx Hm He) as (m2 & Hcases & Hr).
  remember (fexp32 (Zdigits2 mx + ex)) as e1 eqn:He1.
  rewrite fexp32_eq in He1.
  remember (e1 - ex) as n eqn:Hn.
  remember (mx / 2 ^ n) as m1 eqn:Hm1.
  assert (Hn0 : 0 <= n) by lia.
  pose proof (pow2_pos n Hn0) as Hpn.
  assert (Hm1pos : 0 <= m1) by (subst m1; apply Z.div_pos; lia).
  pose proof (bpow_pos e1) as Hbe1. pose proof (bpow_pos ex) as Hbex.
  assert (Hv0 : (0 <= v)%R).
  { assert (0 <= IZR mx)%R by (apply IZR_le; lia). nra. }
  (* the grid of exponent e1 around v *)
  assert (Hgrid_lo : (IZR m1 * bpow e1 <= IZR mx * bpow ex)%R).
  { rewrite (IZR_shift m1 e1 ex) by lia. rewrite <- Hn.
    apply Rmult_le_compat_r; [lra|]. apply IZR_le.
    subst m1. rewrite Z.mul_comm. apply Z.mul_div_le. lia. }
  assert (Hgrid_hi : (IZR (mx + 1) * bpow ex <= IZR (m1 + 1) * bpow e1)%R).
  { rewrite (IZR_shift (m1 + 1) e1 ex) by lia. rewrite <- Hn.
    apply Rmult_le_compat_r; [lra|]. apply IZR_le.
    assert (mx < 2 ^ n * (m1 + 1)).
    { subst m1. replace (2 ^ n * (mx / 2 ^ n + 1))
        with (2 ^ n * (mx / 2 ^ n) + 2 ^ n) by ring.
      pose proof (Z.mod_pos_bound mx (2 ^ n) Hpn).
      pose proof (Z.div_mod mx (2 ^ n)). lia. }
    lia. }
  rewrite !plus_IZR in Hgrid_hi. rewrite plus_IZR in Hhi.
  (* one unit of the grid is within the tolerance *)
  assert (Hulp : (bpow e1 <= ulp_rel * v + ulp_min)%R).
  { pose proof ulp_rel_pos. pose proof ulp_min_pos.
    destruct (Z.eq_dec e1 (-149)) as [->|Hne].
    - unfold ulp_min. nra.
    - assert (Hmx : 0 < mx).
      { destruct (Z.eq_dec mx 0) as [->|]; [|lia].
        change (Zdigits2 0) with 0 in He1. clear - He1 He Hne. lia. }
      assert (He1' : e1 = -23 + (Zdigits2 mx - 1 + ex)) by lia.
      rewrite He1', bpow_add. fold ulp_rel.
      assert (bpow (Zdigits2 mx - 1 + ex) <= v)%R.
      { rewrite bpow_add.
        pose proof (Zdigits2_bounds mx Hmx) as [Hd _].
        pose proof (Zdigits2_pos mx Hmx).
        rewrite (bpow_IZR (Zdigits2 mx - 1)) by lia.
        apply IZR_le in Hd. nra. }
      nra. }
  assert (Hm2 : 0 <= m2) by lia.
  assert (Hbelow : (IZR m1 * bpow e1 <= v)%R) by lra.
  assert (Habove : (v < IZR m1 * bpow e1 + bpow e1)%R).
  { lra. }
  assert (Hr2 : (v - bpow e1 <= IZR m2 * bpow e1 <= v + bpow e1)%R).
  { destruct Hcases as [->| ->].
    - lra.
    - rewrite plus_IZR, Rmult_plus_distr_r, Rmult_1_l. lra. }
  destruct (rounds_to_value sx m2 e1 _ Hm2 Hr) as [Hfv Hval].
  { replace 128 with (1 + 127) by lia. rewrite bpow_add, bpow_1.
    pose proof ulp_rel_small. pose proof ulp_rel_pos. pose proof (bpow_pos 126).
    assert (Hb : bpow 127 = (2 * bpow 126)%R).
    { replace 127 with (1 + 126) by lia. now rewrite bpow_add, bpow_1. }
    assert (ulp_min <= bpow 126)%R by (apply bpow_le; lia).
    assert (ulp_rel * v <= 1 / 8388608 * bpow 127)%R
      by (apply Rmult_le_compat; lra).
    lra. }
  split; [exact Hfv|].
  exists (IZR m2 * bpow e1)%R. split; [exact Hval|]. split.
  - apply IZR_le in Hm2. nra.
  - apply Rabs_le. lra.
Qed.

(** ** Multiplication *)

Lemma Zdigits2_mul_lower (a b : Z) :
  0 < a -> 0 < b -> Zdigits2 a + Zdigits2 b - 1 <= Zdigits2 (a * b).
Proof.
  intros Ha Hb.
  pose proof (Zdigits2_bounds a Ha) as [Hla _].
  pose proof (Zdigits2_bounds b Hb) as [Hlb _].
  pose proof (Zdigits2_pos a Ha). pose proof (Zdigits2_pos b Hb).
  assert (Hab : 0 < a * b) by lia.
  pose proof (Zdigits2_bounds (a * b) Hab) as [_ Hhi].
  destruct (Z_le_gt_dec (Zdigits2 a + Zdigits2 b - 1) (Zdigits2 (a * b)))
    as [|Hgt]; [assumption|exfalso].
  assert (Hp : 2 ^ (Zdigits2 a - 1) * 2 ^ (Zdigits2 b - 1) <= a * b)
    by (apply Z.mul_le_mono_nonneg; try apply Z.pow_nonneg; lia).
  rewrite <- pow2_split in Hp by lia.
  assert (2 ^ Zdigits2 (a * b) <= 2 ^ (Zdigits2 a - 1 + (Zdigits2 b - 1)))
    by (apply Z.pow_le_mono_r; lia).
  lia.
Qed.

Lemma B2R_finite s m e :
  B2R (S754_finite s m e) = (sign_of s * (IZR (Zpos m) * bpow e))%R.
Proof. simpl. ring. Qed.

Lemma mul_error (x y : B32.float) :
  finite_valid x -> finite_valid y ->
  (Rabs (B2R x * B2R y) <= bpow 127)%R ->
  finite_valid (B32.mul x y)
  /\ (Rabs (B2R (B32.mul x y) - B2R x * B2R y)
      <= ulp_rel * Rabs (B2R x * B2R y) + ulp_min)%R
  /\ (0 <= B2R x * B2R y -> 0 <= B2R (B32.mul x y))%R.
Proof.
  intros [Hfx Hvx] [Hfy Hvy] Hmax.
  pose proof ulp_min_pos as Hh. pose proof ulp_rel_pos as Hu.
  assert (Hzero : forall s, finite_valid (S754_zero s)) by (intro; split; reflexivity).
  destruct x as [sx|sx| |sx mx ex]; try discriminate;
    destruct y as [sy|sy| |sy my ey]; try discriminate;
    try (cbn [B32.mul SFmul B2R]; split; [apply Hzero|];
         rewrite ?Rmult_0_l, ?Rmult_0_r, Rminus_0_r, Rabs_R0; split; lra).
  unfold B32.mul; cbn [SFmul].
  apply valid_finite_bounds in Hvx as [Hcx Hbx].
  apply valid_finite_bounds in Hvy as [Hcy Hby].
  rewrite fexp32_eq in Hcx, Hcy.
  set (v := (IZR (Zpos (mx * my)) * bpow (ex + ey))%R).
  assert (Hprod : (B2R (S754_finite sx mx ex) * B2R (S754_finite sy my ey)
                   = sign_of (xorb sx sy) * v)%R).
  { rewrite !B2R_finite, sign_of_xorb. unfold v.
    rewrite Pos2Z.inj_mul, mult_IZR, bpow_add. ring. }
  assert (Hv0 : (0 < v)%R).
  { unfold v. pose proof (bpow_pos (ex + ey)).
    assert (1 <= IZR (Zpos (mx * my)))%R by (apply IZR_le; lia). nra. }
  assert (Habs : Rabs (sign_of (xorb sx sy) * v) = v).
  { rewrite Rabs_mult, sign_of_abs, Rabs_pos_eq; lra. }
  rewrite Hprod in *. rewrite Habs in *.
  destruct (round_aux_error (xorb sx sy) (Zpos (mx * my)) (ex + ey) loc_Exact v)
    as [Hfv (r & Hr & Hr0 & Herr)].
  - lia.
  - pose proof (Zdigits2_mul_lower (Zpos mx) (Zpos my) ltac:(lia) ltac:(lia)) as Hd.
    pose proof (Zdigits2_pos (Zpos mx) ltac:(lia)).
    pose proof (Zdigits2_pos (Zpos my) ltac:(lia)).
    rewrite fexp32_eq. rewrite Pos2Z.inj_mul. lia.
  - unfold v. rewrite plus_IZR. pose proof (bpow_pos (ex + ey)). split; nra.
  - exact Hmax.
  - split; [exact Hfv|]. rewrite Hr. split.
    + replace (sign_of (xorb sx sy) * r - sign_of (xorb sx sy) * v)%R
        with (sign_of (xorb sx sy) * (r - v))%R by ring.
      now rewrite Rabs_mult, sign_of_abs, Rmult_1_l.
    + intros Hs. destruct (xorb sx sy); simpl in *; nra.
Qed.

(** ** Addition of nonnegative numbers *)

Lemma iter_xO_pow (m d : positive) :
  Zpos (Pos.iter xO m d) = Zpos m * 2 ^ Zpos d.
Proof.
  induction d as [|d IH] using Pos.peano_ind.
  - simpl. lia.
  - rewrite Pos.iter_succ, Pos2Z.inj_xO, IH, Pos2Z.inj_succ, Z.pow_succ_r by lia.
    ring.
Qed.

Lemma shl_align_spec (mx : positive) (ex ex' : Z) :
  snd (shl_align mx ex ex') = Z.min ex ex'
  /\ Zpos (fst (shl_align mx ex ex')) = Zpos mx * 2 ^ (ex - Z.min ex ex').
Proof.
  unfold shl_align.
  destruct (ex' - ex) as [|d|d] eqn:Hd; cbn [fst snd].
  - replace (Z.min ex ex') with ex by lia. rewrite Z.sub_diag. lia.
  - replace (Z.min ex ex') with ex by lia. rewrite Z.sub_diag. lia.
  - replace (Z.min ex ex') with ex' by lia. split; [reflexivity|].
    rewrite iter_xO_pow. do 2 f_equal. lia.
Qed.

Lemma Zdigits2_mul_pow2 (m k : Z) :
  0 < m -> 0 <= k -> Zdigits2 (m * 2 ^ k) = Zdigits2 m + k.
Proof.
  intros Hm Hk. pose proof (pow2_pos k Hk) as Hp.
  pose proof (Zdigits2_bounds m Hm) as [Hlo Hhi].
  pose proof (Zdigits2_pos m Hm).
  apply Zdigits2_unique; [lia|]. split.
  - replace (Zdigits2 m + k - 1) with (Zdigits2 m - 1 + k) by lia.
    rewrite pow2_split by lia. apply Z.mul_le_mono_nonneg_r; lia.
  - rewrite pow2_split by lia. apply Z.mul_lt_mono_pos_r; lia.
Qed.

(** [binary_round] on an exact integer mantissa. *)
Lemma binary_round_error sx (mx : positive) ex :
  (IZR (Zpos mx) * bpow ex <= bpow 127)%R ->
  finite_valid (binary_round B32.prec B32.emax sx mx ex)
  /\ exists r : R,
       B2R (binary_round B32.prec B32.emax sx mx ex) = (sign_of sx * r)%R
       /\ (0 <= r)%R
       /\ (Rabs (r - IZR (Zpos mx) * bpow ex)
           <= ulp_rel * (IZR (Zpos mx) * bpow ex) + ulp_min)%R.
Proof.
  intros Hmax. unfold binary_round.
  destruct (shl_align_spec mx ex (fexp B32.prec B32.emax (Zpos (digits2_pos mx) + ex)))
    as [He Hm].
  destruct (shl_align mx ex (fexp B32.prec B32.emax (Zpos (digits2_pos mx) + ex)))
    as [mz ez].
  cbn [fst snd] in He, Hm.
  change (fexp B32.prec B32.emax (Zpos (digits2_pos mx) + ex))
    with (fexp32 (Zdigits2 (Zpos mx) + ex)) in He, Hm.
  rewrite <- He in Hm.
  assert (Hval : (IZR (Zpos mx) * bpow ex = IZR (Zpos mz) * bpow ez)%R).
  { rewrite Hm. apply IZR_shift. lia. }
  assert (Hdig : Zdigits2 (Zpos mz) + ez = Zdigits2 (Zpos mx) + ex).
  { rewrite Hm, Zdigits2_mul_pow2 by lia. lia. }
  rewrite Hval in *.
  apply round_aux_error.
  - lia.
  - rewrite Hdig. lia.
  - rewrite plus_IZR. pose proof (bpow_pos ez). split; nra.
  - exact Hmax.
Qed.

Lemma nonneg_finite_sign s m e :
  (0 <= B2R (S754_finite s m e))%R -> s = false.
Proof.
  rewrite B2R_finite. intros H. destruct s; [|reflexivity]. exfalso.
  pose proof (bpow_pos e). assert (1 <= IZR (Zpos m))%R by (apply IZR_le; lia).
  simpl in H. nra.
Qed.

Lemma add_error (x y : B32.float) :
  finite_valid x -> finite_valid y ->
  (0 <= B2R x)%R -> (0 <= B2R y)%R ->
  (B2R x + B2R y <= bpow 127)%R ->
  finite_valid (B32.add x y)
  /\ (Rabs (B2R (B32.add x y) - (B2R x + B2R y))
      <= ulp_rel * (B2R x + B2R y) + ulp_min)%R
  /\ (0 <= B2R (B32.add x y))%R.
Proof.
  intros Hx Hy Hx0 Hy0 Hmax.
  pose proof ulp_min_pos as Hh. pose proof ulp_rel_pos as Hu.
  assert (Hsame : forall z : B32.float, finite_valid z -> (0 <= B2R z)%R ->
            (B2R z <= bpow 127)%R ->
            finite_valid z
            /\ (Rabs (B2R z - B2R z) <= ulp_rel * B2R z + ulp_min)%R
            /\ (0 <= B2R z)%R).
  { intros z Hz Hz0 _. split; [exact Hz|]. split; [|exact Hz0].
    rewrite Rminus_diag, Rabs_R0. nra. }
  destruct x as [sx|sx| |sx mx ex]; try (destruct Hx; discriminate);
    destruct y as [sy|sy| |sy my ey]; try (destruct Hy; discriminate).
  - (* 0 + 0 *)
    assert (Hz : B2R (B32.add (S754_zero sx) (S754_zero sy)) = 0%R)
      by (destruct sx, sy; reflexivity).
    split; [destruct sx, sy; split; reflexivity|].
    rewrite Hz. cbn [B2R]. rewrite Rplus_0_l, Rminus_0_r, Rabs_R0. split; lra.
  - (* 0 + y *)
    change (B32.add (S754_zero sx) (S754_finite sy my ey))
      with (S754_finite sy my ey).
    cbn [B2R] in *. rewrite Rplus_0_l in *. now apply Hsame.
  - (* x + 0 *)
    change (B32.add (S754_finite sx mx ex) (S754_zero sy))
      with (S754_finite sx mx ex).
    cbn [B2R] in *. rewrite Rplus_0_r in *. now apply Hsame.
  - (* two positive numbers *)
    apply nonneg_finite_sign in Hx0 as ->. apply nonneg_finite_sign in Hy0 as ->.
    unfold B32.add; cbn [SFadd cond_Zopp].
    destruct (shl_align_spec mx ex (Z.min ex ey)) as [_ Hmx'].
    destruct (shl_align_spec my ey (Z.min ex ey)) as [_ Hmy'].
    set (ez := Z.min ex ey) in *.
    replace (Z.min ex ez) with ez in Hmx' by (unfold ez; lia).
    replace (Z.min ey ez) with ez in Hmy' by (unfold ez; lia).
    set (ax := fst (shl_align mx ex ez)) in *.
    set (ay := fst (shl_align my ey ez)) in *.
    change (Zpos ax + Zpos ay) with (Zpos (ax + ay)).
    cbn [binary_normalize].
    assert (Hsum : (B2R (S754_finite false mx ex) + B2R (S754_finite false my ey)
                    = IZR (Zpos (ax + ay)) * bpow ez)%R).
    { rewrite !B2R_finite. cbn [sign_of]. rewrite !Rmult_1_l.
      rewrite (IZR_shift (Zpos mx) ex ez) by (unfold ez; lia).
      rewrite (IZR_shift (Zpos my) ey ez) by (unfold ez; lia).
      rewrite <- Hmx', <- Hmy', Pos2Z.inj_add, plus_IZR. ring. }
    rewrite Hsum in *.
    destruct (binary_round_error false (ax + ay) ez Hmax)
      as [Hfv (r & Hr & Hr0 & Herr)].
    split; [exact Hfv|]. rewrite Hr. cbn [sign_of]. rewrite Rmult_1_l.
    split; [exact Herr|exact Hr0].
Qed.

(** ** Division *)

Lemma Zdigits2_le (a : Z) k :
  0 <= k -> 2 ^ k <= a -> k + 1 <= Zdigits2 a.
Proof.
  intros Hk Ha. pose proof (pow2_pos k Hk).
  pose proof (Zdigits2_bounds a ltac:(lia)) as [_ Hhi].
  destruct (Z_le_gt_dec (k + 1) (Zdigits2 a)) as [|Hgt]; [assumption|exfalso].
  assert (2 ^ Zdigits2 a <= 2 ^ k) by (apply Z.pow_le_mono_r; lia). lia.
Qed.

Lemma div_core_spec (m1 m2 : positive) (e1 e2 : Z) :
  let '(q, e', l) :=
    SFdiv_core_binary B32.prec B32.emax (Zpos m1) e1 (Zpos m2) e2 in
  0 <= q /\ e' <= fexp32 (Zdigits2 q + e')
  /\ (IZR q * bpow e' <= IZR (Zpos m1) * bpow e1 / (IZR (Zpos m2) * bpow e2)
      < IZR (q + 1) * bpow e')%R.
Proof.
  unfold SFdiv_core_binary.
  set (d1 := Zdigits2 (Zpos m1)). set (d2 := Zdigits2 (Zpos m2)).
  change (fexp B32.prec B32.emax (d1 + e1 - (d2 + e2)))
    with (fexp32 (d1 + e1 - (d2 + e2))).
  remember (Z.min (fexp32 (d1 + e1 - (d2 + e2))) (e1 - e2)) as e' eqn:He'.
  remember (e1 - e2 - e') as s eqn:Hs.
  assert (Hs0 : 0 <= s) by lia.
  assert (Hm' : match s with
                | Z0 => Zpos m1
                | Zpos _ => Z.shiftl (Zpos m1) s
                | Zneg _ => 0
                end = Zpos m1 * 2 ^ s).
  { destruct s as [|p|p]; [simpl; lia|apply Z.shiftl_mul_pow2; lia|lia]. }
  rewrite Hm'. clear Hm'.
  set (m' := Zpos m1 * 2 ^ s).
  pose proof (pow2_pos s Hs0) as Hps.
  assert (Hm'pos : 0 < m') by (unfold m'; lia).
  assert (Hdiv : Z.div_eucl m' (Zpos m2) = (m' / Zpos m2, m' mod Zpos m2))
    by (unfold Z.div, Z.modulo; destruct (Z.div_eucl m' (Zpos m2)); reflexivity).
  rewrite Hdiv.
  set (q := m' / Zpos m2).
  assert (Hq0 : 0 <= q) by (apply Z.div_pos; lia).
  assert (Hqlo : Zpos m2 * q <= m') by (apply Z.mul_div_le; lia).
  assert (Hqhi : m' < Zpos m2 * (q + 1)).
  { pose proof (Z.div_mod m' (Zpos m2) ltac:(lia)).
    pose proof (Z.mod_pos_bound m' (Zpos m2) ltac:(lia)). fold q in H. lia. }
  split; [exact Hq0|]. split.
  - (* the quotient has enough digits *)
    assert (Hd' : Zdigits2 m' = d1 + s)
      by (unfold m'; apply Zdigits2_mul_pow2; lia).
    pose proof (Zdigits2_bounds m' Hm'pos) as [Hlo' _].
    pose proof (Zdigits2_bounds (Zpos m2) ltac:(lia)) as [_ Hhi2]. fold d2 in Hhi2.
    pose proof (Zdigits2_pos (Zpos m2) ltac:(lia)) as Hd2. fold d2 in Hd2.
    pose proof (Zdigits2_pos (Zpos m1) ltac:(lia)) as Hd1. fold d1 in Hd1.
    rewrite Hd' in Hlo'.
    assert (Hdq : d1 + s - d2 <= Zdigits2 q).
    { destruct (Z_le_gt_dec (d1 + s - d2) 0) as [|Hgt].
      - pose proof (Zdigits2_nonneg q). lia.
      - assert (Hk : 2 ^ (d1 + s - d2 - 1) <= q).
        { apply Z.div_le_lower_bound; [lia|].
          assert (Zpos m2 * 2 ^ (d1 + s - d2 - 1)
                  <= 2 ^ d2 * 2 ^ (d1 + s - d2 - 1))
            by (apply Z.mul_le_mono_nonneg_r; [apply Z.pow_nonneg|]; lia).
          rewrite <- pow2_split in H by lia.
          replace (d2 + (d1 + s - d2 - 1)) with (d1 + s - 1) in H by lia. lia. }
        apply Zdigits2_le in Hk; lia. }
    rewrite fexp32_eq in *. lia.
  - (* the quotient is the floor of the exact ratio *)
    pose proof (bpow_pos e') as Hbe'. pose proof (bpow_pos e2) as Hbe2.
    assert (Hm2 : (0 < IZR (Zpos m2))%R) by (apply IZR_lt; lia).
    assert (Hnum : (IZR (Zpos m1) * bpow e1 = IZR m' * (bpow e' * bpow e2))%R).
    { rewrite <- bpow_add. unfold m'.
      rewrite (IZR_shift (Zpos m1) e1 (e' + e2)) by lia.
      now replace (e1 - (e' + e2)) with s by lia. }
    rewrite Hnum.
    replace (IZR m' * (bpow e' * bpow e2) / (IZR (Zpos m2) * bpow e2))%R
      with (IZR m' / IZR (Zpos m2) * bpow e')%R by (field; lra).
    apply IZR_le in Hqlo. apply IZR_lt in Hqhi.
    rewrite mult_IZR in Hqlo, Hqhi.
    assert (IZR q <= IZR m' / IZR (Zpos m2))%R.
    { apply Rmult_le_reg_r with (IZR (Zpos m2)); [lra|].
      unfold Rdiv. rewrite Rmult_assoc, Rinv_l by lra. lra. }
    assert (IZR m' / IZR (Zpos m2) < IZR (q + 1))%R.
    { apply Rmult_lt_reg_r with (IZR (Zpos m2)); [lra|].
      unfold Rdiv. rewrite Rmult_assoc, Rinv_l by lra. lra. }
    split; nra.
Qed.

Lemma div_error (x y : B32.float) :
  finite_valid x -> finite_valid y -> B2R y <> 0%R ->
  (Rabs (B2R x / B2R y) <= bpow 127)%R ->
  finite_valid (B32.div x y)
  /\ (Rabs (B2R (B32.div x y) - B2R x / B2R y)
      <= ulp_rel * Rabs (B2R x / B2R y) + ulp_min)%R.
Proof.
  intros [Hfx Hvx] [Hfy Hvy] Hy0 Hmax.
  pose proof ulp_min_pos as Hh. pose proof ulp_rel_pos as Hu.
  destruct y as [sy|sy| |sy my ey]; try discriminate;
    try (simpl in Hy0; lra).
  destruct x as [sx|sx| |sx mx ex]; try discriminate.
  - cbn [B32.div SFdiv B2R]. split; [split; reflexivity|].
    unfold Rdiv. rewrite Rmult_0_l, Rminus_0_r, Rabs_R0. lra.
  - unfold B32.div; cbn [SFdiv].
    pose proof (div_core_spec mx my ex ey) as Hcore.
    destruct (SFdiv_core_binary B32.prec B32.emax (Zpos mx) ex (Zpos my) ey)
      as [[q e'] l].
    destruct Hcore as (Hq0 & Hdig & Hfloor).
    set (v := (IZR (Zpos mx) * bpow ex / (IZR (Zpos my) * bpow ey))%R) in *.
    assert (Hprod : (B2R (S754_finite sx mx ex) / B2R (S754_finite sy my ey)
                     = sign_of (xorb sx sy) * v)%R).
    { rewrite !B2R_finite, sign_of_xorb. unfold v.
      pose proof (bpow_pos ey).
      assert (0 < IZR (Zpos my))%R by (apply IZR_lt; lia).
      destruct sx, sy; simpl; field; lra. }
    assert (Hv0 : (0 <= v)%R).
    { pose proof (bpow_pos e'). assert (0 <= IZR q)%R by (apply IZR_le; lia). nra. }
    assert (Habs : Rabs (sign_of (xorb sx sy) * v) = v).
    { rewrite Rabs_mult, sign_of_abs, Rabs_pos_eq; lra. }
    rewrite Hprod in *. rewrite Habs in *.
    destruct (round_aux_error (xorb sx sy) q e' l v Hq0 Hdig Hfloor Hmax)
      as [Hfv (r & Hr & Hr0 & Herr)].
    split; [exact Hfv|]. rewrite Hr.
    replace (sign_of (xorb sx sy) * r - sign_of (xorb sx sy) * v)%R
      with (sign_of (xorb sx sy) * (r - v))%R by ring.
    now rewrite Rabs_mult, sign_of_abs, Rmult_1_l.
Qed.

(** ** Square root *)

Lemma sqrt_core_spec (m : positive) (e : Z) :
  let '(q, e', l) := SFsqrt_core_binary B32.prec B32.emax (Zpos m) e in
  0 <= q /\ e' <= fexp32 (Zdigits2 q + e')
  /\ (IZR q * bpow e' <= sqrt (IZR (Zpos m) * bpow e) < IZR (q + 1) * bpow e')%R.
Proof.
  unfold SFsqrt_core_binary.
  set (d := Zdigits2 (Zpos m)).
  change (fexp B32.prec B32.emax (Z.div2 (d + e + 1)))
    with (fexp32 (Z.div2 (d + e + 1))).
  rewrite !Z.div2_div.
  remember (Z.min (fexp32 ((d + e + 1) / 2)) (e / 2)) as e' eqn:He'.
  remember (e - 2 * e') as s eqn:Hs.
  assert (He2 : 2 * (e / 2) <= e) by (apply Z.mul_div_le; lia).
  assert (Hs0 : 0 <= s) by lia.
  assert (Hm' : match s with
                | Z0 => Zpos m
                | Zpos _ => Z.shiftl (Zpos m) s
                | Zneg _ => 0
                end = Zpos m * 2 ^ s).
  { destruct s as [|p|p]; [simpl; lia|apply Z.shiftl_mul_pow2; lia|lia]. }
  rewrite Hm'. clear Hm'.
  set (m' := Zpos m * 2 ^ s).
  pose proof (pow2_pos s Hs0) as Hps.
  assert (Hm'pos : 0 < m') by (unfold m'; lia).
  pose proof (Z.sqrtrem_spec m' ltac:(lia)) as Hspec.
  destruct (Z.sqrtrem m') as [q r].
  destruct Hspec as [Hqr Hr].
  assert (Hq0 : 0 <= q) by nia.
  assert (Hqlo : q * q <= m') by lia.
  assert (Hqhi : m' < (q + 1) * (q + 1)) by lia.
  split; [exact Hq0|]. split.
  - (* digits of the integer square root *)
    assert (Hd' : Zdigits2 m' = d + s)
      by (unfold m'; apply Zdigits2_mul_pow2; lia).
    pose proof (Zdigits2_bounds m' Hm'pos) as [Hlo' Hhi'].
    pose proof (Zdigits2_pos (Zpos m) ltac:(lia)) as Hd1. fold d in Hd1.
    rewrite Hd' in Hlo', Hhi'.
    set (k := (d + s + 1) / 2).
    assert (Hk : 2 * k - 1 <= d + s <= 2 * k).
    { unfold k. pose proof (Z.div_mod (d + s + 1) 2 ltac:(lia)).
      pose proof (Z.mod_pos_bound (d + s + 1) 2 ltac:(lia)). lia. }
    assert (Hk1 : 1 <= k) by lia.
    assert (Hqk : 2 ^ (k - 1) <= q).
    { destruct (Z_le_gt_dec (2 ^ (k - 1)) q) as [|Hgt]; [assumption|exfalso].
      assert (Hsq : (q + 1) * (q + 1) <= 2 ^ (k - 1) * 2 ^ (k - 1))
        by (apply Z.mul_le_mono_nonneg; lia).
      rewrite <- pow2_split in Hsq by lia.
      assert (2 ^ (k - 1 + (k - 1)) <= 2 ^ (d + s - 1))
        by (apply Z.pow_le_mono_r; lia).
      lia. }
    assert (Hdq : k <= Zdigits2 q) by (apply Zdigits2_le in Hqk; lia).
    assert (Hke : k = (d + e + 1) / 2 - e').
    { unfold k. rewrite Hs.
      replace (d + (e - 2 * e') + 1) with (d + e + 1 + (- e') * 2) by lia.
      rewrite Z.div_add by lia. lia. }
    rewrite fexp32_eq in *. lia.
  - pose proof (bpow_pos e') as Hbe'.
    assert (Hval : (IZR (Zpos m) * bpow e = IZR m' * (bpow e' * bpow e'))%R).
    { rewrite <- bpow_add. unfold m'.
      rewrite (IZR_shift (Zpos m) e (e' + e')) by lia.
      now replace (e - (e' + e')) with s by lia. }
    rewrite Hval.
    assert (Hq0R : (0 <= IZR q)%R) by (apply IZR_le; lia).
    apply IZR_le in Hqlo. apply IZR_lt in Hqhi.
    rewrite mult_IZR in Hqlo, Hqhi.
    assert (Hq1R : (0 <= IZR (q + 1))%R) by (apply IZR_le; lia).
    split.
    + rewrite <- (sqrt_square (IZR q * bpow e')) by nra.
      apply sqrt_le_1_alt. nra.
    + rewrite <- (sqrt_square (IZR (q + 1) * bpow e')) by nra.
      assert (HB : (0 < bpow e' * bpow e')%R) by nra.
      apply sqrt_lt_1_alt. split.
      * assert (0 <= IZR m')%R by (apply IZR_le; lia). nra.
      * replace (IZR (q + 1) * bpow e' * (IZR (q + 1) * bpow e'))%R
          with (IZR (q + 1) * IZR (q + 1) * (bpow e' * bpow e'))%R by ring.
        now apply Rmult_lt_compat_r.
Qed.

Lemma valid_finite_value_bound s m e :
  B32.valid (S754_finite s m e) = true ->
  (IZR (Zpos m) * bpow e < bpow 128)%R.
Proof.
  intros Hv. apply valid_finite_bounds in Hv as [Hc He].
  rewrite fexp32_eq in Hc.
  pose proof (Zdigits2_bounds (Zpos m) ltac:(lia)) as [_ Hhi].
  pose proof (Zdigits2_pos (Zpos m) ltac:(lia)) as Hd.
  assert (Hm : Zpos m < 2 ^ 24).
  { assert (2 ^ Zdigits2 (Zpos m) <= 2 ^ 24) by (apply Z.pow_le_mono_r; lia). lia. }
  apply IZR_lt in Hm. rewrite <- bpow_IZR in Hm by lia.
  assert (bpow e <= bpow 104)%R by (apply bpow_le; lia).
  replace 128 with (24 + 104) by lia. rewrite bpow_add.
  pose proof (bpow_pos e). pose proof (bpow_pos 24).
  assert (0 < IZR (Zpos m))%R by (apply IZR_lt; lia).
  nra.
Qed.

Lemma sqrt_error (x : B32.float) :
  finite_valid x -> (0 <= B2R x)%R ->
  finite_valid (B32.sqrt x)
  /\ (Rabs (B2R (B32.sqrt x) - sqrt (B2R x))
      <= ulp_rel * sqrt (B2R x) + ulp_min)%R
  /\ (0 <= B2R (B32.sqrt x))%R.
Proof.
  intros [Hfx Hvx] Hx0.
  pose proof ulp_min_pos as Hh. pose proof ulp_rel_pos as Hu.
  destruct x as [sx|sx| |sx mx ex]; try discriminate.
  - cbn [B32.sqrt SFsqrt B2R]. split; [split; reflexivity|].
    rewrite sqrt_0, Rminus_0_r, Rabs_R0. split; lra.
  - apply nonneg_finite_sign in Hx0 as ->.
    unfold B32.sqrt; cbn [SFsqrt].
    pose proof (sqrt_core_spec mx ex) as Hcore.
    destruct (SFsqrt_core_binary B32.prec B32.emax (Zpos mx) ex) as [[q e'] l].
    destruct Hcore as (Hq0 & Hdig & Hfloor).
    rewrite B2R_finite. cbn [sign_of]. rewrite Rmult_1_l.
    set (X := (IZR (Zpos mx) * bpow ex)%R) in *.
    assert (HX : (X < bpow 128)%R) by (apply (valid_finite_value_bound false); exact Hvx).
    assert (HX0 : (0 <= X)%R).
    { unfold X. pose proof (bpow_pos ex).
      assert (0 < IZR (Zpos mx))%R by (apply IZR_lt; lia). nra. }
    assert (Hmax : (sqrt X <= bpow 127)%R).
    { rewrite <- (sqrt_square (bpow 127)) by (pose proof (bpow_pos 127); lra).
      apply sqrt_le_1_alt. rewrite <- bpow_add.
      assert (bpow 128 <= bpow (127 + 127))%R by (apply bpow_le; lia). lra. }
    destruct (round_aux_error false q e' l (sqrt X) Hq0 Hdig Hfloor Hmax)
      as [Hfv (r & Hr & Hr0 & Herr)].
    split; [exact Hfv|]. rewrite Hr. cbn [sign_of]. rewrite Rmult_1_l.
    split; [exact Herr|exact Hr0].
Qed.

Local Open Scope R_scope.

(** ** Error analysis of the speed-control block (real arithmetic) *)

Lemma abs_bound (x y z : R) : Rabs (x - y) <= z -> y - z <= x <= y + z.
Proof. unfold Rabs. destruct (Rcase_abs (x - y)); lra. Qed.

(** Squares, their sum, and the rounded sum. *)
Lemma sum_of_squares_estimate (X Y p q S h : R) :
  0 <= X -> 0 <= Y -> 0 <= h ->
  Rabs (p - X) <= u23 * X + h ->
  Rabs (q - Y) <= u23 * Y + h ->
  Rabs (S - (p + q)) <= u23 * (p + q) + h ->
  64 * h <= u23 * (X + Y) ->
  (1 - 21 / 10 * u23) * (X + Y) <= S <= (1 + 21 / 10 * u23) * (X + Y).
Proof.
  unfold u23. intros HX HY Hh Hp Hq HS Hsmall.
  apply abs_bound in Hp, Hq, HS. lra.
Qed.

Lemma root_lower (N R k : R) :
  0 <= N -> 0 <= R -> 0 <= k <= 1 -> k * (N * N) <= R * R -> k * N <= R.
Proof.
  intros HN HR Hk Hsq.
  destruct (Rle_lt_dec (k * N) R) as [|Hlt]; [assumption|exfalso].
  assert (H1 : R * R <= R * (k * N)) by (apply Rmult_le_compat_l; lra).
  assert (H2 : R * (k * N) < k * N * (k * N)) by (apply Rmult_lt_compat_r; lra).
  assert (H3 : k * (k * (N * N)) <= 1 * (k * (N * N))).
  { apply Rmult_le_compat_r; [|lra].
    apply Rmult_le_pos; [lra|]. apply Rle_0_sqr. }
  lra.
Qed.

Lemma root_upper (N R k : R) :
  0 <= N -> 0 <= R -> 1 <= k -> R * R <= k * (N * N) -> R <= k * N.
Proof.
  intros HN HR Hk Hsq.
  destruct (Rle_lt_dec R (k * N)) as [|Hlt]; [assumption|exfalso].
  assert (HkN : 0 <= k * N) by (apply Rmult_le_pos; lra).
  assert (H1 : k * N * (k * N) <= k * N * R) by (apply Rmult_le_compat_l; lra).
  assert (H2 : k * N * R < R * R) by (apply Rmult_lt_compat_r; lra).
  assert (H3 : 1 * (k * (N * N)) <= k * (k * (N * N))).
  { apply Rmult_le_compat_r; [|lra].
    apply Rmult_le_pos; [lra|]. apply Rle_0_sqr. }
  lra.
Qed.

(** The computed speed [s] against the exact speed [N]. *)
Lemma speed_estimate (N S R s h : R) :
  0 <= N -> 0 <= R -> 0 <= h ->
  R * R = S ->
  (1 - 21 / 10 * u23) * (N * N) <= S <= (1 + 21 / 10 * u23) * (N * N) ->
  Rabs (s - R) <= u23 * R + h ->
  64 * h <= u23 * N ->
  (1 - 4 * u23) * N <= s <= (1 + 4 * u23) * N.
Proof.
  intros HN HR Hh HRS [HSlo HShi] Hs Hsmall.
  assert (Hlo : (1 - 21 / 10 * u23) * N <= R)
    by (apply root_lower; unfold u23 in *; lra).
  assert (Hhi : R <= (1 + 21 / 10 * u23) * N)
    by (apply root_upper; unfold u23 in *; lra).
  apply abs_bound in Hs. unfold u23 in *. lra.
Qed.

(** One component: divide by the computed speed, multiply by the bound [c]. *)
Lemma component_estimate (w d v c h : R) :
  0 <= h -> 0 <= c <= 40 ->
  Rabs (d - w) <= u23 * Rabs w + h ->
  Rabs (v - d * c) <= u23 * Rabs (d * c) + h ->
  Rabs (v - w * c) <= 21 / 10 * u23 * Rabs (w * c) + 42 * h.
Proof.
  intros Hh Hc Hd Hv.
  rewrite !Rabs_mult in *. rewrite (Rabs_pos_eq c) in * by lra.
  assert (Hdabs : Rabs d <= Rabs w + (u23 * Rabs w + h)).
  { replace d with (w + (d - w)) at 1 by ring.
    eapply Rle_trans; [apply Rabs_triang|]. lra. }
  pose proof (Rabs_pos w) as Hw. pose proof (Rabs_pos d) as Hd0.
  replace (v - w * c) with ((v - d * c) + (d - w) * c) by ring.
  eapply Rle_trans; [apply Rabs_triang|].
  rewrite Rabs_mult, (Rabs_pos_eq c) by lra.
  assert (Rabs (d - w) * c <= (u23 * Rabs w + h) * c)
    by (apply Rmult_le_compat_r; lra).
  assert (Rabs d * c <= (Rabs w + (u23 * Rabs w + h)) * c)
    by (apply Rmult_le_compat_r; lra).
  unfold u23 in *. nra.
Qed.

Lemma square_abs (x : R) : x * x = Rabs x * Rabs x.
Proof. unfold Rabs. destruct (Rcase_abs x); ring. Qed.

(** A vector close to [(x0, y0)], of norm [G], has norm close to [G]. *)
Lemma norm_estimate (x0 y0 vx vy G k t : R) :
  0 <= G -> x0 * x0 + y0 * y0 = G * G -> 0 <= k -> 0 <= t ->
  Rabs (vx - x0) <= k * Rabs x0 + t ->
  Rabs (vy - y0) <= k * Rabs y0 + t ->
  (1 - 2 * k) * (G * G) - 4 * t * G <= vx * vx + vy * vy
  /\ vx * vx + vy * vy <= ((1 + k) * G + 2 * t) * ((1 + k) * G + 2 * t).
Proof.
  intros HG Hnorm Hk Ht Hx Hy.
  set (A := Rabs x0) in *. set (B := Rabs y0) in *.
  assert (HA0 : 0 <= A) by apply Rabs_pos.
  assert (HB0 : 0 <= B) by apply Rabs_pos.
  assert (HAB : A * A + B * B = G * G).
  { unfold A, B. now rewrite <- !square_abs. }
  assert (HAG : A <= G).
  { destruct (Rle_lt_dec A G) as [|Hlt]; [assumption|exfalso].
    assert (G * G < A * A) by nra. nra. }
  assert (HBG : B <= G).
  { destruct (Rle_lt_dec B G) as [|Hlt]; [assumption|exfalso].
    assert (G * G < B * B) by nra. nra. }
  (* each component *)
  assert (Hcomp : forall v z0 Z, Z = Rabs z0 ->
            Rabs (v - z0) <= k * Z + t ->
            Z * Z - 2 * Z * (k * Z + t) <= v * v
            /\ v * v <= (Z * (1 + k) + t) * (Z * (1 + k) + t)).
  { intros v z0 Z HZ He.
    assert (HZ0 : 0 <= Z) by (subst Z; apply Rabs_pos).
    assert (Hz : z0 * z0 = Z * Z) by (subst Z; apply square_abs).
    pose proof (Rabs_pos (v - z0)) as He0.
    set (e := v - z0) in *.
    assert (Hee : e * e = Rabs e * Rabs e) by apply square_abs.
    assert (Hze : - (Z * Rabs e) <= z0 * e <= Z * Rabs e).
    { subst Z. unfold Rabs. destruct (Rcase_abs z0), (Rcase_abs e); nra. }
    replace v with (z0 + e) by (unfold e; ring).
    replace ((z0 + e) * (z0 + e)) with (z0 * z0 + 2 * (z0 * e) + e * e) by ring.
    rewrite Hz, Hee.
    assert (Z * Rabs e <= Z * (k * Z + t)) by (apply Rmult_le_compat_l; lra).
    assert (Rabs e * Rabs e <= (k * Z + t) * (k * Z + t))
      by (apply Rmult_le_compat; lra).
    split; nra. }
  destruct (Hcomp vx x0 A eq_refl Hx) as [Hxlo Hxhi].
  destruct (Hcomp vy y0 B eq_refl Hy) as [Hylo Hyhi].
  assert (HAt : A * t <= G * t) by (apply Rmult_le_compat_r; lra).
  assert (HBt : B * t <= G * t) by (apply Rmult_le_compat_r; lra).
  split.
  - nra.
  - assert (HAkt : A * ((1 + k) * t) <= G * ((1 + k) * t))
      by (apply Rmult_le_compat_r; nra).
    assert (HBkt : B * ((1 + k) * t) <= G * ((1 + k) * t))
      by (apply Rmult_le_compat_r; nra).
    nra.
Qed.

(** The ideal rescaled norm [G = N * c / s] when [s] is close to [N]. *)
Lemma ideal_norm_estimate (N s c G : R) :
  0 < N -> 0 <= c ->
  (1 - 4 * u23) * N <= s <= (1 + 4 * u23) * N ->
  G * s = N * c ->
  (1 - 4 * u23) * c <= G <= (1 + 41 / 10 * u23) * c.
Proof.
  intros HN Hc [Hlo Hhi] HG.
  assert (Hs : 0 < s) by (unfold u23 in *; lra).
  assert (HG0 : 0 <= G).
  { destruct (Rle_lt_dec 0 G) as [|Hneg]; [assumption|exfalso].
    assert (G * s < 0) by nra. nra. }
  split.
  - (* G * (1 + 4u) * N >= G * s = N * c *)
    assert (H1 : G * s <= G * ((1 + 4 * u23) * N))
      by (apply Rmult_le_compat_l; lra).
    assert (H2 : N * c <= N * (G * (1 + 4 * u23))) by lra.
    apply Rmult_le_reg_l in H2; [|exact HN].
    unfold u23 in *. nra.
  - assert (H1 : G * ((1 - 4 * u23) * N) <= G * s)
      by (apply Rmult_le_compat_l; lra).
    assert (H2 : N * (G * (1 - 4 * u23)) <= N * c) by lra.
    apply Rmult_le_reg_l in H2; [|exact HN].
    unfold u23 in *. nra.
Qed.

(** The speed after a rescale towards [c = 10] or [c = 40]. *)
Lemma rescaled_speed_estimate (vx vy G c h : R) :
  c = 10 \/ c = 40 ->
  0 <= h <= 1 / 1000000000000000000000000000000 ->
  (1 - 4 * u23) * c <= G <= (1 + 41 / 10 * u23) * c ->
  (1 - 2 * (21 / 10 * u23)) * (G * G) - 4 * (42 * h) * G <= vx * vx + vy * vy ->
  vx * vx + vy * vy
    <= ((1 + 21 / 10 * u23) * G + 2 * (42 * h))
       * ((1 + 21 / 10 * u23) * G + 2 * (42 * h)) ->
  (1 - 8 * u23) * c <= sqrt (vx * vx + vy * vy) <= (1 + 8 * u23) * c.
Proof.
  intros Hc Hh [HGlo HGhi] Hlo Hhi.
  assert (Hc0 : 10 <= c <= 40) by (destruct Hc; lra).
  assert (HG0 : 0 < G) by (unfold u23 in *; lra).
  split.
  - rewrite <- (sqrt_square ((1 - 8 * u23) * c)) by (unfold u23; lra).
    apply sqrt_le_1_alt.
    eapply Rle_trans; [|exact Hlo].
    assert (Hg : (1 - 4 * u23) * c * ((1 - 4 * u23) * c) <= G * G)
      by (apply Rmult_le_compat; unfold u23 in *; lra).
    assert (Hhg : h * G <= 1 / 1000000000000000000000000000000 * (2 * c))
      by (apply Rmult_le_compat; unfold u23 in *; lra).
    unfold u23 in *. destruct Hc as [-> | ->]; lra.
  - rewrite <- (sqrt_square ((1 + 8 * u23) * c)) by (unfold u23; lra).
    apply sqrt_le_1_alt.
    eapply Rle_trans; [exact Hhi|].
    apply Rmult_le_compat; unfold u23 in *; lra.
Qed.

(** ** The speed-control block in binary32, up to rounding *)

Lemma bpow_neg (e k : Z) :
  (0 <= k)%Z -> e = (- k)%Z -> bpow e = / IZR (2 ^ k).
Proof.
  intros Hk ->. pose proof (bpow_opp k) as H. rewrite (bpow_IZR k Hk) in H.
  assert (0 < IZR (2 ^ k)) by (apply IZR_lt; now apply pow2_pos).
  apply Rmult_eq_reg_r with (IZR (2 ^ k)); [|lra].
  rewrite H, Rinv_l; lra.
Qed.

Lemma ulp_rel_u23 : ulp_rel = u23.
Proof. unfold u23. apply ulp_rel_value. Qed.

Lemma ulp_min_tiny : 0 <= ulp_min <= 1 / 1000000000000000000000000000000.
Proof.
  split; [pose proof ulp_min_pos; lra|].
  unfold ulp_min.
  assert (bpow (-149) <= bpow (-100)) by (apply bpow_le; lia).
  rewrite (bpow_neg (-100) 100) in H by lia.
  change (2 ^ 100)%Z with 1267650600228229401496703205376%Z in H.
  lra.
Qed.

Lemma MIN_SPEED_value :
  finite_valid (@MIN_SPEED B32.float binary32)
  /\ B2R (@MIN_SPEED B32.float binary32) = 10.
Proof.
  split; [split; reflexivity|].
  rewrite MIN_SPEED_binary32, B2R_finite. cbn [sign_of].
  rewrite (bpow_neg (-20) 20) by lia. change (2 ^ 20)%Z with 1048576%Z. lra.
Qed.

Lemma MAX_SPEED_value :
  finite_valid (@MAX_SPEED B32.float binary32)
  /\ B2R (@MAX_SPEED B32.float binary32) = 40.
Proof.
  split; [split; reflexivity|].
  rewrite MAX_SPEED_binary32, B2R_finite. cbn [sign_of].
  rewrite (bpow_neg (-18) 18) by lia. change (2 ^ 18)%Z with 262144%Z. lra.
Qed.

Lemma canonical_normal (m : positive) (e : Z) :
  canonical_mantissa B32.prec B32.emax m e = true ->
  (Zpos m < 2 ^ 24)%Z /\ ((-149 < e)%Z -> (2 ^ 23 <= Zpos m)%Z).
Proof.
  intros Hc. apply canonical_mantissa_eq in Hc. rewrite fexp32_eq in Hc.
  pose proof (Zdigits2_bounds (Zpos m) ltac:(lia)) as [Hlo Hhi].
  pose proof (Zdigits2_pos (Zpos m) ltac:(lia)) as Hd.
  split.
  - assert (2 ^ Zdigits2 (Zpos m) <= 2 ^ 24)%Z by (apply Z.pow_le_mono_r; lia).
    lia.
  - intros He. assert (Hd24 : Zdigits2 (Zpos m) = 24%Z) by lia.
    rewrite Hd24 in Hlo. exact Hlo.
Qed.

(** A computed speed that is not below [MIN_SPEED] is at least 10. *)
Lemma not_below_MIN_SPEED (s : B32.float) :
  finite_valid s -> 0 <= B2R s -> flt s MIN_SPEED = false -> 10 <= B2R s.
Proof.
  intros [Hf Hv] Hs0 Hlt.
  destruct s as [sg|sg| |sg m e]; try discriminate Hf.
  - destruct sg; vm_compute in Hlt; discriminate.
  - apply nonneg_finite_sign in Hs0 as ->.
    unfold B32.valid, valid_binary, bounded in Hv.
    apply andb_prop in Hv as [Hc _]. apply canonical_normal in Hc as [Hhi Hlo].
    rewrite MIN_SPEED_binary32 in Hlt.
    cbv [flt binary32 B32.ltb SFltb SFcompare] in Hlt.
    rewrite B2R_finite. cbn [sign_of]. rewrite Rmult_1_l.
    destruct (Z.compare_spec e (-20)) as [->|He|He]; try discriminate Hlt.
    + assert (Hm : (10485760 <= Zpos m)%Z).
      { destruct (Pos.compare_cont Eq m 10485760) eqn:Hcmp;
          try discriminate Hlt.
        - apply (Pos.compare_eq m 10485760) in Hcmp. subst m. apply Z.le_refl.
        - apply (proj1 (Pos.compare_gt_iff m 10485760)) in Hcmp.
          apply Pos2Z.pos_lt_pos in Hcmp. apply Z.lt_le_incl. exact Hcmp. }
      apply IZR_le in Hm. rewrite (bpow_neg (-20) 20) by lia.
      change (2 ^ 20)%Z with 1048576%Z. lra.
    + specialize (Hlo ltac:(lia)). apply IZR_le in Hlo.
      change (2 ^ 23)%Z with 8388608%Z in Hlo.
      assert (bpow (-19) <= bpow e) by (apply bpow_le; lia).
      rewrite (bpow_neg (-19) 19) in H by lia. change (2 ^ 19)%Z with 524288%Z in H.
      pose proof (bpow_pos e). nra.
Qed.

(** A computed speed that is not above [MAX_SPEED] is at most 40. *)
Lemma not_above_MAX_SPEED (s : B32.float) :
  finite_valid s -> 0 <= B2R s -> fgt s MAX_SPEED = false -> B2R s <= 40.
Proof.
  intros [Hf Hv] Hs0 Hgt.
  destruct s as [sg|sg| |sg m e]; try discriminate Hf.
  - simpl. lra.
  - apply nonneg_finite_sign in Hs0 as ->.
    unfold B32.valid, valid_binary, bounded in Hv.
    apply andb_prop in Hv as [Hc _]. apply canonical_normal in Hc as [Hhi Hlo].
    rewrite MAX_SPEED_binary32 in Hgt.
    cbv [fgt flt binary32 B32.ltb SFltb SFcompare] in Hgt.
    rewrite B2R_finite. cbn [sign_of]. rewrite Rmult_1_l.
    destruct (Z.compare_spec (-18) e) as [<-|He|He]; try discriminate Hgt.
    + assert (Hm : (Zpos m <= 10485760)%Z).
      { destruct (Pos.compare_cont Eq 10485760 m) eqn:Hcmp;
          try discriminate Hgt.
        - apply (Pos.compare_eq 10485760 m) in Hcmp. subst m. apply Z.le_refl.
        - apply (proj1 (Pos.compare_gt_iff 10485760 m)) in Hcmp.
          apply Pos2Z.pos_lt_pos in Hcmp. apply Z.lt_le_incl. exact Hcmp. }
      apply IZR_le in Hm. rewrite (bpow_neg (-18) 18) by lia.
      change (2 ^ 18)%Z with 262144%Z. lra.
    + apply IZR_lt in Hhi. change (2 ^ 24)%Z with 16777216%Z in Hhi.
      assert (bpow e <= bpow (-19)) by (apply bpow_le; lia).
      rewrite (bpow_neg (-19) 19) in H by lia. change (2 ^ 19)%Z with 524288%Z in H.
      pose proof (bpow_pos e).
      assert (0 < IZR (Zpos m)) by (apply IZR_lt; lia). nra.
Qed.

Lemma velocity_norm_square (b : Boid B32.float) :
  exact_speed b * exact_speed b
  = B2R (vx b) * B2R (vx b) + B2R (vy b) * B2R (vy b).
Proof. unfold exact_speed. apply sqrt_sqrt. nra. Qed.

Lemma square_nonneg_abs (a : R) : Rabs (a * a) = a * a.
Proof. apply Rabs_pos_eq. nra. Qed.

(** The computed speed is within four units in the last place of the exact
    one. *)
Lemma speed_of_estimate (b : Boid B32.float) :
  finite_valid (vx b) -> finite_valid (vy b) ->
  bpow (-60) <= exact_speed b <= bpow 60 ->
  finite_valid (speed_of b)
  /\ (1 - 4 * u23) * exact_speed b <= B2R (speed_of b)
     <= (1 + 4 * u23) * exact_speed b.
Proof.
  intros Hvx Hvy [HNlo HNhi].
  set (N := exact_speed b) in *.
  set (a := B2R (vx b)). set (c := B2R (vy b)).
  pose proof (velocity_norm_square b) as HN2. fold N a c in HN2.
  pose proof (bpow_pos (-60)) as Hb60.
  assert (HN0 : 0 < N) by lra.
  pose proof ulp_min_tiny as [Hh0 Hh].
  (* sizes *)
  assert (HNN_hi : N * N <= bpow 120).
  { replace 120%Z with (60 + 60)%Z by lia. rewrite bpow_add.
    apply Rmult_le_compat; lra. }
  assert (HNN_lo : bpow (-120) <= N * N).
  { replace (-120)%Z with (-60 + -60)%Z by lia. rewrite bpow_add.
    apply Rmult_le_compat; lra. }
  assert (H120 : bpow 120 <= bpow 126) by (apply bpow_le; lia).
  assert (H127 : bpow 127 = 2 * bpow 126).
  { replace 127%Z with (1 + 126)%Z by lia. now rewrite bpow_add, bpow_1. }
  assert (H1le : 1 <= bpow 120).
  { rewrite <- bpow_0. apply bpow_le. lia. }
  assert (Hsmall2 : 64 * ulp_min <= u23 * (N * N)).
  { assert (E : 64 * ulp_min = u23 * bpow (-120)).
    { rewrite <- ulp_rel_u23. unfold ulp_min, ulp_rel.
      rewrite <- bpow_add. replace (-23 + -120)%Z with (6 + -149)%Z by lia.
      rewrite bpow_add, (bpow_IZR 6) by lia. change (2 ^ 6)%Z with 64%Z. ring. }
    rewrite E. apply Rmult_le_compat_l; [unfold u23; lra|exact HNN_lo]. }
  assert (Hsmall1 : 64 * ulp_min <= u23 * N).
  { assert (E : 64 * ulp_min = u23 * bpow (-120)).
    { rewrite <- ulp_rel_u23. unfold ulp_min, ulp_rel.
      rewrite <- bpow_add. replace (-23 + -120)%Z with (6 + -149)%Z by lia.
      rewrite bpow_add, (bpow_IZR 6) by lia. change (2 ^ 6)%Z with 64%Z. ring. }
    rewrite E. apply Rmult_le_compat_l; [unfold u23; lra|].
    assert (bpow (-120) <= bpow (-60)) by (apply bpow_le; lia). lra. }
  (* the two squares *)
  destruct (mul_error (vx b) (vx b) Hvx Hvx) as (Hpv & Hp & Hp0).
  { fold a. rewrite square_nonneg_abs. nra. }
  destruct (mul_error (vy b) (vy b) Hvy Hvy) as (Hqv & Hq & Hq0).
  { fold c. rewrite square_nonneg_abs. nra. }
  fold a in Hp, Hp0. fold c in Hq, Hq0.
  rewrite square_nonneg_abs, ulp_rel_u23 in Hp, Hq.
  specialize (Hp0 ltac:(nra)). specialize (Hq0 ltac:(nra)).
  set (p := B32.mul (vx b) (vx b)) in *.
  set (q := B32.mul (vy b) (vy b)) in *.
  (* their sum *)
  assert (Hpq : B2R p + B2R q <= bpow 127).
  { apply abs_bound in Hp, Hq. unfold u23 in *. nra. }
  destruct (add_error p q Hpv Hqv Hp0 Hq0 Hpq) as (HSv & HS & HS0).
  rewrite ulp_rel_u23 in HS.
  set (S := B32.add p q) in *.
  assert (HSest : (1 - 21 / 10 * u23) * (N * N) <= B2R S
                  <= (1 + 21 / 10 * u23) * (N * N)).
  { rewrite HN2.
    apply (sum_of_squares_estimate (a * a) (c * c) (B2R p) (B2R q) (B2R S) ulp_min);
      try assumption; try nra. }
  (* its square root *)
  destruct (sqrt_error S HSv HS0) as (Hsv & Hs & Hs0).
  rewrite ulp_rel_u23 in Hs.
  split; [exact Hsv|].
  apply (speed_estimate N (B2R S) (sqrt (B2R S)) (B2R (B32.sqrt S)) ulp_min);
    try assumption; try lra.
  - apply sqrt_pos.
  - now apply sqrt_sqrt.
Qed.

(** One component of the rescaled velocity. *)
Lemma rescale_component (v s cf : B32.float) (c0 N : R) :
  finite_valid v -> finite_valid s -> finite_valid cf ->
  B2R cf = c0 -> c0 = 10 \/ c0 = 40 ->
  0 < N -> Rabs (B2R v) <= N ->
  (1 - 4 * u23) * N <= B2R s <= (1 + 4 * u23) * N ->
  finite_valid (B32.mul (B32.div v s) cf)
  /\ Rabs (B2R (B32.mul (B32.div v s) cf) - B2R v / B2R s * c0)
     <= 21 / 10 * u23 * Rabs (B2R v / B2R s * c0) + 42 * ulp_min.
Proof.
  intros Hv Hs Hcf Hc0 Hc HN Hav [Hslo Hshi].
  pose proof ulp_min_tiny as [Hh0 Hh].
  assert (Hs0 : 0 < B2R s) by (unfold u23 in *; lra).
  assert (Hc040 : 0 <= c0 <= 40) by (destruct Hc; lra).
  assert (H7 : 128 <= bpow 127).
  { assert (bpow 7 <= bpow 127) by (apply bpow_le; lia).
    rewrite (bpow_IZR 7) in H by lia. change (2 ^ 7)%Z with 128%Z in H. lra. }
  assert (Hw : Rabs (B2R v / B2R s) <= 2).
  { unfold Rdiv. rewrite Rabs_mult, Rabs_inv, (Rabs_pos_eq (B2R s)) by lra.
    apply Rmult_le_reg_r with (B2R s); [lra|].
    rewrite Rmult_assoc, Rinv_l by lra. unfold u23 in *. lra. }
  destruct (div_error v s Hv Hs) as (Hdv & Hd); [lra|lra|].
  rewrite ulp_rel_u23 in Hd.
  set (d := B32.div v s) in *.
  assert (Hdabs : Rabs (B2R d) <= 3).
  { replace (B2R d) with (B2R v / B2R s + (B2R d - B2R v / B2R s)) by ring.
    eapply Rle_trans; [apply Rabs_triang|]. unfold u23 in *. lra. }
  destruct (mul_error d cf Hdv Hcf) as (Hrv & Hr & _).
  { rewrite Hc0, Rabs_mult, (Rabs_pos_eq c0) by lra.
    assert (Rabs (B2R d) * c0 <= 3 * 40)
      by (apply Rmult_le_compat; try lra; apply Rabs_pos).
    lra. }
  rewrite ulp_rel_u23, Hc0 in Hr.
  split; [exact Hrv|].
  now apply (component_estimate (B2R v / B2R s) (B2R d)).
Qed.

Lemma component_below_speed (b : Boid B32.float) :
  Rabs (B2R (vx b)) <= exact_speed b /\ Rabs (B2R (vy b)) <= exact_speed b.
Proof.
  pose proof (velocity_norm_square b) as Hsq.
  assert (HN : 0 <= exact_speed b) by apply sqrt_pos.
  set (N := exact_speed b) in *.
  split.
  - destruct (Rle_lt_dec (Rabs (B2R (vx b))) N) as [|Hlt]; [assumption|exfalso].
    assert (N * N < Rabs (B2R (vx b)) * Rabs (B2R (vx b))) by nra.
    rewrite <- square_abs in H. nra.
  - destruct (Rle_lt_dec (Rabs (B2R (vy b))) N) as [|Hlt]; [assumption|exfalso].
    assert (N * N < Rabs (B2R (vy b)) * Rabs (B2R (vy b))) by nra.
    rewrite <- square_abs in H. nra.
Qed.

(** The velocity after a rescale towards [cf], of value 10 or 40. *)
Lemma rescaled_within_tolerance (b : Boid B32.float) (cf : B32.float) (c0 : R) :
  finite_valid (vx b) -> finite_valid (vy b) ->
  bpow (-60) <= exact_speed b <= bpow 60 ->
  finite_valid cf -> B2R cf = c0 -> c0 = 10 \/ c0 = 40 ->
  let b' := set_vy (set_vx b (fmul (fdiv (vx b) (speed_of b)) cf))
                   (fmul (fdiv (vy b) (speed_of b)) cf) in
  finite_valid (vx b') /\ finite_valid (vy b')
  /\ (1 - 8 * u23) * c0 <= exact_speed b' <= (1 + 8 * u23) * c0.
Proof.
  intros Hvx Hvy HN Hcf Hc0 Hc b'.
  destruct (speed_of_estimate b Hvx Hvy HN) as [Hsv Hs].
  pose proof (bpow_pos (-60)) as Hb60.
  assert (HN0 : 0 < exact_speed b) by lra.
  destruct (component_below_speed b) as [Hax Hay].
  destruct (rescale_component (vx b) (speed_of b) cf c0 (exact_speed b))
    as [Hxv Hx]; try assumption.
  destruct (rescale_component (vy b) (speed_of b) cf c0 (exact_speed b))
    as [Hyv Hy]; try assumption.
  split; [exact Hxv|]. split; [exact Hyv|].
  unfold exact_speed. unfold b'. cbn [vx vy set_vx set_vy fmul fdiv binary32].
  pose proof (velocity_norm_square b) as Hsq.
  set (N := exact_speed b) in *. set (s := B2R (speed_of b)) in *.
  set (a := B2R (vx b)) in *. set (c := B2R (vy b)) in *.
  assert (Hs0 : 0 < s) by (unfold u23 in *; lra).
  assert (Hc040 : 0 <= c0 <= 40) by (destruct Hc; lra).
  set (G := N * c0 / s).
  assert (HG0 : 0 <= G).
  { unfold G. apply Rmult_le_pos; [nra|]. apply Rlt_le, Rinv_0_lt_compat, Hs0. }
  assert (HGs : G * s = N * c0) by (unfold G; field; lra).
  assert (Hnorm : a / s * c0 * (a / s * c0) + c / s * c0 * (c / s * c0) = G * G).
  { unfold G. transitivity ((a * a + c * c) * (c0 * c0) / (s * s)); [field; lra|].
    rewrite <- Hsq. field. lra. }
  pose proof ulp_min_tiny as Hh.
  destruct (norm_estimate (a / s * c0) (c / s * c0) _ _ G (21 / 10 * u23)
              (42 * ulp_min) HG0 Hnorm ltac:(unfold u23; lra) ltac:(lra) Hx Hy)
    as [Hlo Hhi].
  apply (rescaled_speed_estimate _ _ G c0 ulp_min); try assumption.
  apply (ideal_norm_estimate N s c0 G); try assumption; lra.
Qed.

(** The whole block: whichever branch is taken, a finite velocity of
    moderate size leaves with a speed in the interval, up to [2^-20]
    relative. *)
Lemma speed_control_within_tolerance (b : Boid B32.float) :
  finite_valid (vx b) -> finite_valid (vy b) ->
  bpow (-60) <= exact_speed b <= bpow 60 ->
  finite_valid (vx (speed_control b)) /\ finite_valid (vy (speed_control b))
  /\ (1 - bpow (-20)) * 10 <= exact_speed (speed_control b)
     <= (1 + bpow (-20)) * 40.
Proof.
  intros Hvx Hvy HN.
  assert (Hu : bpow (-20) = 8 * u23).
  { rewrite (bpow_neg (-20) 20) by lia. change (2 ^ 20)%Z with 1048576%Z.
    unfold u23. lra. }
  rewrite Hu.
  destruct (speed_of_estimate b Hvx Hvy HN) as [Hsv Hs].
  pose proof (bpow_pos (-60)) as Hb60.
  destruct MIN_SPEED_value as [Hminv Hmin].
  destruct MAX_SPEED_value as [Hmaxv Hmax].
  destruct (flt (speed_of b) MIN_SPEED) eqn:Elo.
  - assert (Hlo : speed_control b
                  = set_vy (set_vx b (fmul (fdiv (vx b) (speed_of b)) MIN_SPEED))
                           (fmul (fdiv (vy b) (speed_of b)) MIN_SPEED)).
    { unfold speed_control. now rewrite Elo, (clamp_below _ Elo). }
    rewrite Hlo.
    destruct (rescaled_within_tolerance b MIN_SPEED 10 Hvx Hvy HN Hminv Hmin
                ltac:(left; reflexivity)) as (Hx & Hy & Hb).
    cbv zeta in *. split; [exact Hx|]. split; [exact Hy|].
    unfold u23 in *. lra.
  - destruct (fgt (speed_of b) MAX_SPEED) eqn:Ehi.
    + assert (Hhi : speed_control b
                    = set_vy (set_vx b (fmul (fdiv (vx b) (speed_of b)) MAX_SPEED))
                             (fmul (fdiv (vy b) (speed_of b)) MAX_SPEED)).
      { unfold speed_control.
        rewrite Ehi, (clamp_above _ Ehi), orb_true_r. reflexivity. }
      rewrite Hhi.
      destruct (rescaled_within_tolerance b MAX_SPEED 40 Hvx Hvy HN Hmaxv Hmax
                  ltac:(right; reflexivity)) as (Hx & Hy & Hb).
      cbv zeta in *. split; [exact Hx|]. split; [exact Hy|].
      unfold u23 in *. lra.
    + assert (Hsame : speed_control b = b)
        by (unfold speed_control; now rewrite Elo, Ehi).
      rewrite Hsame. split; [exact Hvx|]. split; [exact Hvy|].
      assert (Hs0 : 0 <= B2R (speed_of b)) by (unfold u23 in *; lra).
      pose proof (not_below_MIN_SPEED _ Hsv Hs0 Elo).
      pose proof (not_above_MAX_SPEED _ Hsv Hs0 Ehi).
      unfold u23 in *. lra.
Qed.

Local Close Scope R_scope.

(** The slow agent of the examples: a finite velocity of exact speed
    [sqrt 37]. *)
Lemma slow_agent_moderate :
  finite_valid (vx (slow_agent (F := B32.float)))
  /\ finite_valid (vy (slow_agent (F := B32.float)))
  /\ (bpow (-60) <= exact_speed slow_agent <= bpow 60)%R.
Proof.
  split; [split; reflexivity|]. split; [split; reflexivity|].
  assert (Ex : vx (slow_agent (F := B32.float)) = S754_finite false 8388608 (-23))
    by (vm_compute; reflexivity).
  assert (Ey : vy (slow_agent (F := B32.float)) = S754_finite false 12582912 (-21))
    by (vm_compute; reflexivity).
  unfold exact_speed. rewrite Ex, Ey, !B2R_finite. cbn [sign_of].
  rewrite (bpow_neg (-23) 23), (bpow_neg (-21) 21) by lia.
  change (2 ^ 23)%Z with 8388608%Z. change (2 ^ 21)%Z with 2097152%Z.
  match goal with
  | |- context [sqrt ?t] => replace t with 37%R by lra
  end.
  assert (Hlo : (bpow (-60) <= bpow 0)%R) by (apply bpow_le; lia).
  assert (Hhi : (bpow 6 <= bpow 60)%R) by (apply bpow_le; lia).
  rewrite bpow_0 in Hlo.
  rewrite (bpow_IZR 6) in Hhi by lia. change (2 ^ 6)%Z with 64%Z in Hhi.
  assert (H1 : (1 <= sqrt 37)%R).
  { rewrite <- sqrt_1 at 1. apply sqrt_le_1; lra. }
  assert (H37 : (sqrt 37 <= 37)%R).
  { rewrite <- (sqrt_square 37) at 2 by lra. apply sqrt_le_1; nra. }
  lra.
Qed.

(** C2 (amended). With [s] the pre-clamp speed as the program computes it:
    when [MIN_SPEED <= s <= MAX_SPEED] the velocity is left unchanged; when
    [s < MIN_SPEED] or [s > MAX_SPEED] each component [v] is replaced by
    [(v / s) * clamp(s)], where [clamp(s)] is [MIN_SPEED], respectively
    [MAX_SPEED]; a NaN speed changes nothing.

    In binary32 the interval is reached up to rounding: when both velocity
    components are finite and the Euclidean norm of the velocity is between
    [2^-60] and [2^60], the components after the block are finite and their
    Euclidean norm lies between [MIN_SPEED * (1 - 2^-20)] and
    [MAX_SPEED * (1 + 2^-20)].  (Outside that size the squares may underflow
    or overflow, and the bound is lost.)

    In exact arithmetic, for a nonzero [s], the block multiplies both
    components by the positive factor [clamp(s) / s], so the direction is
    kept and the new speed is exactly [clamp(s)], inside
    [[MIN_SPEED, MAX_SPEED]]. *)
Theorem speed_control_clamps :
  (forall b : Boid B32.float,
     let s := speed_of b in
     (in_speed_range s = true -> speed_control b = b)
     /\ (flt s MIN_SPEED = true ->
         speed_control b
         = set_vy (set_vx b (fmul (fdiv (vx b) s) MIN_SPEED))
                  (fmul (fdiv (vy b) s) MIN_SPEED))
     /\ (fgt s MAX_SPEED = true ->
         speed_control b
         = set_vy (set_vx b (fmul (fdiv (vx b) s) MAX_SPEED))
                  (fmul (fdiv (vy b) s) MAX_SPEED))
     /\ (B32.is_nan s = true -> speed_control b = b)
     /\ (in_speed_range s = true \/ flt s MIN_SPEED = true
         \/ fgt s MAX_SPEED = true \/ B32.is_nan s = true))
  /\ (forall b : Boid B32.float,
        let b' := speed_control b in
        finite_valid (vx b) -> finite_valid (vy b) ->
        (bpow (-60) <= exact_speed b <= bpow 60)%R ->
        finite_valid (vx b') /\ finite_valid (vy b')
        /\ ((1 - bpow (-20)) * 10 <= exact_speed b'
            <= (1 + bpow (-20)) * 40)%R)
  /\ (forall b : Boid R,
        let s := speed_of b in
        let b' := speed_control b in
        s <> 0%R ->
        (MIN_SPEED <= speed_of b' <= MAX_SPEED)%R
        /\ speed_of b' = clamp s MIN_SPEED MAX_SPEED
        /\ vx b' = (vx b * (clamp s MIN_SPEED MAX_SPEED / s))%R
        /\ vy b' = (vy b * (clamp s MIN_SPEED MAX_SPEED / s))%R
        /\ (0 < clamp s MIN_SPEED MAX_SPEED / s)%R
        /\ ((MIN_SPEED <= s <= MAX_SPEED)%R -> b' = b)).
Proof.
  split; [|split].
  - intros b s. repeat apply conj.
    + intros Hin. destruct (in_speed_range_no_clamp s Hin) as [Hlo Hhi].
      unfold speed_control. fold s. now rewrite Hlo, Hhi.
    + intros Hlo. unfold speed_control. fold s.
      now rewrite Hlo, (clamp_below s Hlo).
    + intros Hhi. unfold speed_control. fold s.
      rewrite Hhi, (clamp_above s Hhi), orb_true_r. reflexivity.
    + intros Hnan. destruct (nan_no_clamp s Hnan) as [Hlo Hhi].
      unfold speed_control. fold s. now rewrite Hlo, Hhi.
    + destruct (flt s MIN_SPEED) eqn:Hlo; [auto|].
      destruct (fgt s MAX_SPEED) eqn:Hhi; [auto|].
      destruct (B32.is_nan s) eqn:Hnan; [auto|].
      left. now apply no_clamp_in_speed_range.
  - intros b b' Hvx Hvy Hsize. unfold b'.
    now apply speed_control_within_tolerance.
  - intros b s b' Hs.
    pose proof (exact_speed_nonneg b) as Hpos.
    pose proof (exact_speed_square b) as Hsq.
    fold s in Hpos, Hsq.
    assert (Hs0 : (0 < s)%R) by lra.
    unfold b'. rewrite exact_speed_control, exact_clamp,
      exact_MIN_SPEED, exact_MAX_SPEED. fold s.
    destruct (Rlt_dec s 10) as [Hlo|Hlo]; [|destruct (Rlt_dec 40 s) as [Hhi|Hhi]].
    + assert (Hnew : speed_of (set_vy (set_vx b (vx b / s * 10)%R)
                                 (vy b / s * 10)%R) = 10%R).
      { unfold speed_of; cbn [vx vy set_vx set_vy fsqrt fadd fmul exact].
        apply exact_rescaled_speed; lra. }
      rewrite Hnew. cbn [vx vy set_vx set_vy].
      repeat split; try lra; try (field; lra).
      apply Rdiv_lt_0_compat; lra.
    + assert (Hnew : speed_of (set_vy (set_vx b (vx b / s * 40)%R)
                                 (vy b / s * 40)%R) = 40%R).
      { unfold speed_of; cbn [vx vy set_vx set_vy fsqrt fadd fmul exact].
        apply exact_rescaled_speed; lra. }
      rewrite Hnew. cbn [vx vy set_vx set_vy].
      repeat split; try lra; try (field; lra).
      apply Rdiv_lt_0_compat; lra.
    + fold s. repeat split; try lra; try (field; lra).
      apply Rdiv_lt_0_compat; lra.
Qed.

Lemma speed_control_clamps_witness :
  speed_control (F := B32.float) slow_agent
  = set_vy (set_vx slow_agent
              (fmul (fdiv (vx slow_agent) (speed_of slow_agent)) MIN_SPEED))
           (fmul (fdiv (vy slow_agent) (speed_of slow_agent)) MIN_SPEED)
  /\ ((1 - bpow (-20)) * 10
      <= exact_speed (speed_control (F := B32.float) slow_agent)
      <= (1 + bpow (-20)) * 40)%R
  /\ (MIN_SPEED <= speed_of (speed_control (F := R) slow_agent) <= MAX_SPEED)%R.
Proof.
  destruct speed_control_clamps as (Hfloat & Hround & Hexact).
  split; [|split].
  - destruct (Hfloat slow_agent) as (_ & Hlo & _).
    apply Hlo. vm_compute. reflexivity.
  - destruct slow_agent_moderate as (Hvx & Hvy & Hsize).
    destruct (Hround slow_agent Hvx Hvy Hsize) as (_ & _ & Hbound).
    exact Hbound.
  - destruct (Hexact slow_agent) as (Hrange & _).
    + apply Rgt_not_eq.
      unfold speed_of, slow_agent; cbn [vx vy fsqrt fadd fmul of_int exact].
      apply sqrt_lt_R0. lra.
    + exact Hrange.
Defined.

(** C2 as stated fails in binary32.  Alone in the store:
    - the agent with velocity [(1, 6)] has pre-clamp speed about 6.08; it is
      rescaled to [(1.6439898, 9.863938)], whose speed, computed as the
      program computes it, is [9.999999 < MIN_SPEED];
    - the agent with velocity [(2^100, 0)], finite and well-formed, has
      pre-clamp speed [+infinity] (the square overflows); it is rescaled to
      [(0, 0)], speed 0. *)
Lemma speed_bound_fails_in_binary32 :
  (B32.is_zero (speed_of (pre_clamp slow_agent (scan [slow_agent] 0 slow_agent)
                            (of_int 1))) = false
   /\ map speed_of (update_boids [slow_agent] (of_int 1))
      = [S754_finite false 10485759 (-20)]
   /\ in_speed_range (S754_finite false 10485759 (-20)) = false)
  /\ (finite_valid (vx racing_agent) /\ finite_valid (vy racing_agent)
      /\ B32.is_zero (speed_of (pre_clamp racing_agent
                                  (scan [racing_agent] 0 racing_agent)
                                  (of_int 1))) = false
      /\ map speed_of (update_boids [racing_agent] (of_int 1)) = [S754_zero false]
      /\ in_speed_range (S754_zero false) = false).
Proof. repeat split; vm_compute; reflexivity. Qed.

(** ** Threads on the shared store *)

Section Interleaving.
Context {F : Type} `{FloatOps F}.

Lemma run_schedule_sound sched :
  forall (c c' : config) dt,
    run_schedule sched c dt = Some c' -> par_steps dt c c'.
Proof.
  induction sched as [|t sched IH]; intros [boids ws] c' dt Hrun; simpl in Hrun.
  - injection Hrun as <-. constructor.
  - destruct (nth_error ws t) as [w|] eqn:Hw; [|discriminate].
    destruct (worker_step boids w dt) as [[boids' w']|] eqn:Hstep; [|discriminate].
    eapply par_steps_step; [|apply IH; exact Hrun].
    econstructor; eassumption.
Qed.

Lemma store_store {A : Type} (v : list A) i a a' :
  store (store v i a) i a' = store v i a'.
Proof.
  revert i; induction v as [|b v IH]; intros [|i]; simpl; auto.
  now rewrite IH.
Qed.

(** With a single thread every block is forced. *)
Lemma single_worker_step (boids : list (Boid F)) w dt c :
  par_step dt (boids, [w]) c ->
  exists boids' w', worker_step boids w dt = Some (boids', w')
                    /\ c = (boids', [w']).
Proof.
  intros Hstep. inversion Hstep as [bs ws t w0 boids' w' Hnth Hw]; subst.
  destruct t as [|t]; simpl in Hnth.
  - injection Hnth as <-. now exists boids', w'.
  - destruct t; discriminate.
Qed.

Lemma single_worker_progress (boids final : list (Boid F)) w ws dt :
  par_steps dt (boids, [w]) (final, ws) ->
  forallb worker_done ws = true ->
  worker_done w = false ->
  exists boids' w', worker_step boids w dt = Some (boids', w')
                    /\ par_steps dt (boids', [w']) (final, ws).
Proof.
  intros Hsteps Hdone Hw.
  inversion Hsteps as [c|c1 c2 c3 Hstep Hrest]; subst.
  - simpl in Hdone. rewrite Hw in Hdone. discriminate.
  - apply single_worker_step in Hstep as (boids' & w' & Hws & ->).
    now exists boids', w'.
Qed.

Lemma single_worker_finished (boids final : list (Boid F)) w ws dt :
  par_steps dt (boids, [w]) (final, ws) ->
  worker_done w = true -> final = boids.
Proof.
  intros Hsteps Hw.
  inversion Hsteps as [c|c1 c2 c3 Hstep Hrest]; subst; [reflexivity|].
  apply single_worker_step in Hstep as (boids' & w' & Hws & ->).
  unfold worker_step, worker_done in *.
  destruct (at_index boids (w_i w)); [|discriminate].
  destruct (w_pc w); try discriminate.
  destruct (w_i w <? w_end w); discriminate.
Qed.

(** One thread running alone over [[i, i + n)] is the loop of
    [update_boids_batch]. *)
Lemma single_worker_is_batch_iter n :
  forall (boids final : list (Boid F)) i ws dt,
    par_steps dt (boids, [mkWorker i (i + Z.of_nat n) AtScan]) (final, ws) ->
    forallb worker_done ws = true ->
    batch_iter n boids i dt = Some final.
Proof.
  induction n as [|n IH]; intros boids final i ws dt Hsteps Hdone.
  - simpl. f_equal. symmetry.
    apply (single_worker_finished _ _ _ _ _ Hsteps).
    unfold worker_done; cbn [w_i w_end w_pc].
    destruct (Z.ltb_spec i (i + Z.of_nat 0)); [lia|reflexivity].
  - assert (Hlt : (i <? i + Z.of_nat (S n)) = true) by (apply Z.ltb_lt; lia).
    (* the scan *)
    apply single_worker_progress in Hsteps as (b1 & w1 & Hs1 & Hsteps);
      [|assumption|unfold worker_done; cbn [w_i w_end w_pc]; now rewrite Hlt].
    unfold worker_step in Hs1; cbn [w_i w_end w_pc] in Hs1.
    destruct (at_index boids i) as [boid|] eqn:Hat; [|discriminate].
    rewrite Hlt in Hs1. injection Hs1 as <- <-.
    (* the velocity rule *)
    apply single_worker_progress in Hsteps as (b2 & w2 & Hs2 & Hsteps);
      [|assumption|reflexivity].
    unfold worker_step in Hs2; cbn [w_i w_end w_pc] in Hs2.
    rewrite Hat in Hs2. injection Hs2 as <- <-.
    (* the position update *)
    apply single_worker_progress in Hsteps as (b3 & w3 & Hs3 & Hsteps);
      [|assumption|reflexivity].
    unfold worker_step in Hs3; cbn [w_i w_end w_pc] in Hs3.
    apply at_index_Some in Hat as [Hpos Hnth].
    assert (Hk : (Z.to_nat i < length boids)%nat)
      by (apply nth_error_Some; congruence).
    unfold at_index in Hs3. destruct (Z.ltb_spec i 0); [lia|].
    rewrite nth_error_store_same in Hs3 by assumption.
    injection Hs3 as <- <-. rewrite store_store in Hsteps.
    simpl. unfold at_index. destruct (Z.ltb_spec i 0); [lia|]. rewrite Hnth.
    apply (IH _ _ _ ws). 2: assumption.
    replace (i + 1 + Z.of_nat n) with (i + Z.of_nat (S n)) by lia.
    exact Hsteps.
Qed.

Lemma one_thread_bounds N :
  0 <= N <= INT_MAX -> batch_bounds N 1 = Some [(0, N)].
Proof.
  intros HN. unfold batch_bounds, batch_size, INT_MAX in *.
  change (1 =? 0) with false; cbv iota.
  change (map Z.of_nat (seq 0 (Z.to_nat 1))) with [0].
  rewrite Z.div_1_r. cbn [map]. unfold start_idx, end_idx.
  rewrite Z.mul_0_l.
  change (to_int (to_unsigned 0)) with 0.
  change (0 =? to_unsigned (1 - 1)) with true; cbv iota.
  rewrite !to_int_small by lia. reflexivity.
Qed.

Lemma one_thread_is_sequential (boids final : list (Boid F)) dt :
  Z.of_nat (length boids) <= INT_MAX ->
  update_boids_parallel 1 boids dt final ->
  final = update_boids boids dt.
Proof.
  intros HN (bounds & ws & Hb & Hsteps & Hdone).
  rewrite one_thread_bounds in Hb by lia. injection Hb as <-.
  simpl in Hsteps.
  pose proof (single_worker_is_batch_iter (length boids) boids final 0 ws dt)
    as Hrun. simpl in Hrun.
  specialize (Hrun Hsteps Hdone).
  pose proof (batch_iter_zipper boids [] dt) as Hseq; simpl in Hseq.
  unfold update_boids. congruence.
Qed.

End Interleaving.

(** *** Two threads, two agents *)

Lemma same_store_refl l : same_store l l = true.
Proof.
  induction l as [|a l IH]; simpl; auto.
  unfold same_boid. now rewrite !same_float_refl, Z.eqb_refl, IH.
Qed.

Lemma same_store_differ l1 l2 : same_store l1 l2 = false -> l1 <> l2.
Proof. intros Hd ->. rewrite same_store_refl in Hd. discriminate. Qed.

Lemma after_is_outcome sched :
  run_schedule sched (race_store, race_threads) race_dt = Some (after sched) ->
  forallb worker_done (snd (after sched)) = true ->
  update_boids_parallel 2 race_store race_dt (fst (after sched)).
Proof.
  intros Hrun Hdone. exists [(0, 1); (1, 2)], (snd (after sched)).
  split; [reflexivity|]. split; [|exact Hdone].
  apply (run_schedule_sound sched). fold race_threads.
  rewrite Hrun. now destruct (after sched).
Qed.

Lemma after_is_observed sched (bj : Boid B32.float) :
  run_schedule sched (race_store, race_threads) race_dt = Some (after sched) ->
  nth_error (snd (after sched)) 1 = Some (mkWorker 1 2 AtScan) ->
  nth_error (fst (after sched)) 0 = Some bj ->
  scan_may_observe 2 race_store race_dt 1 0 bj.
Proof.
  intros Hrun Hw Hb.
  exists [(0, 1); (1, 2)], (fst (after sched)), (snd (after sched)),
    (mkWorker 1 2 AtScan).
  repeat split; auto.
  apply (run_schedule_sound sched). fold race_threads.
  rewrite Hrun. now destruct (after sched).
Qed.

(** C10. Under the parallel scheduler the thread that owns agent 1 may
    execute its scan while agent 0, owned by the other thread, is in the
    previous tick's settled state, or has its new velocity but still its old
    position, or is fully updated; the three interleavings leave three
    different stores, only one of which is the store the sequential
    [update_boids] leaves.  With a single thread the parallel tick always
    equals the sequential one, so the outcome depends on the number of
    threads and on the scheduling. *)
Theorem parallel_tick_depends_on_interleaving :
  let b0 := mkBoid (of_int 100) (of_int 100) (of_int 12) (of_int 0) (of_int 0) 0 in
  let acc0 := scan race_store 0 b0 in
  let reference := update_boids race_store race_dt in
  (scan_may_observe 2 race_store race_dt 1 0 b0
   /\ scan_may_observe 2 race_store race_dt 1 0 (velocity_rule b0 acc0 race_dt)
   /\ scan_may_observe 2 race_store race_dt 1 0 (tick b0 acc0 race_dt)
   /\ b0 <> velocity_rule b0 acc0 race_dt
   /\ velocity_rule b0 acc0 race_dt <> tick b0 acc0 race_dt)
  /\ (update_boids_parallel 2 race_store race_dt (fst (after early))
      /\ update_boids_parallel 2 race_store race_dt (fst (after midway))
      /\ update_boids_parallel 2 race_store race_dt (fst (after serial))
      /\ fst (after serial) = reference
      /\ fst (after early) <> reference
      /\ fst (after midway) <> reference
      /\ fst (after early) <> fst (after midway))
  /\ (forall final,
        update_boids_parallel 1 race_store race_dt final -> final = reference).
Proof.
  intros b0 acc0 reference.
  split; [|split].
  - repeat apply conj.
    + apply (after_is_observed []); reflexivity.
    + apply (after_is_observed [0; 0]%nat); vm_compute; reflexivity.
    + apply (after_is_observed [0; 0; 0]%nat); vm_compute; reflexivity.
    + intros E. apply (f_equal (fun b => same_float (vx b) (vx b0))) in E.
      vm_compute in E. discriminate E.
    + intros E. apply (f_equal (fun b => same_float (x b) (x b0))) in E.
      vm_compute in E. discriminate E.
  - repeat apply conj.
    + apply after_is_outcome; vm_compute; reflexivity.
    + apply after_is_outcome; vm_compute; reflexivity.
    + apply after_is_outcome; vm_compute; reflexivity.
    + vm_compute. reflexivity.
    + apply same_store_differ. vm_compute. reflexivity.
    + apply same_store_differ. vm_compute. reflexivity.
    + apply same_store_differ. vm_compute. reflexivity.
  - intros final Hpar.
    apply (one_thread_is_sequential race_store final race_dt); [|exact Hpar].
    vm_compute. discriminate.
Qed.

Lemma parallel_tick_depends_on_interleaving_witness :
  fst (after_with (spawn [(0, 2)]) [0; 0; 0; 0; 0; 0]%nat)
  = update_boids race_store race_dt.
Proof.
  destruct parallel_tick_depends_on_interleaving as (_ & _ & Hone).
  apply Hone.
  exists [(0, 2)], (snd (after_with (spawn [(0, 2)]) [0; 0; 0; 0; 0; 0]%nat)).
  split; [reflexivity|]. split; [|vm_compute; reflexivity].
  apply (run_schedule_sound [0; 0; 0; 0; 0; 0]%nat). vm_compute. reflexivity.
Defined.
